(** * Matcha: the model wrapper and the AWP controller of [model.py]

    A shallow embedding of [model.py] and the properties of its two classes:

    - [Matcha]: the freezing policy of [__init__] and the loss pair returned
      by [forward];
    - [AWP]:    the save / attack / restore cycle of adversarial weight
      perturbation.

    Python scalars are binary64 floats ([PrimFloat.float]).  The element type
    of tensors is left to an interface ([Dtype]) that lists the operations of
    the tensor framework the code calls; [float64] is its IEEE binary64
    instance.  Tensors live in a store of storages addressed by locations, so
    that [clone], the in-place [add_] and the rebinding [param.data = t] keep
    the meaning they have in the source. *)

From Stdlib Require Import ZArith Floats.
From stdpp Require Import base option list strings gmap.

Set Default Proof Using "Type".

(** ** Python scalars and strings *)

Module Py.

(** [s.startswith(sub)] *)
Fixpoint starts_with (sub s : string) : bool :=
  match sub, s with
  | EmptyString, _ => true
  | String a sub', String b s' => bool_decide (a = b) && starts_with sub' s'
  | String _ _, EmptyString => false
  end.

(** [sub in s] on two strings: [sub] occurs in [s] at some offset. *)
Fixpoint str_in (sub s : string) : bool :=
  starts_with sub s ||
  match s with
  | EmptyString => false
  | String _ s' => str_in sub s'
  end.

(** An [int] operand of a float operation, converted to binary64 (for an
    [int] below 2^63 in absolute value, which a layer count is). *)
Definition float_of_int (z : Z) : float :=
  match z with
  | Z0 => PrimFloat.zero
  | Zpos _ => PrimFloat.of_uint63 (Uint63.of_Z z)
  | Zneg _ => PrimFloat.opp (PrimFloat.of_uint63 (Uint63.of_Z (- z)))
  end.

(** [int(x)] on a float: truncation toward zero; it raises on an infinity
    and on a NaN ([None]). *)
Definition int_of_float (x : float) : option Z :=
  match Prim2SF x with
  | S754_zero _ => Some 0%Z
  | S754_finite s m e =>
      let mag := match e with
                 | Zneg p => Z.shiftr (Zpos m) (Zpos p)
                 | _ => Z.shiftl (Zpos m) e
                 end in
      Some (if s then (- mag)%Z else mag)
  | S754_infinity _ | S754_nan => None
  end.

(** [l[:k]] *)
Definition slice_to {A} (k : Z) (l : list A) : list A :=
  if (0 <=? k)%Z then take (Z.to_nat k) l
  else take (length l - Z.to_nat (- k)) l.

End Py.

(** ** The tensor framework, as far as [model.py] uses it *)

Module Torch.

(** The element operations behind the tensor expressions of the source.  A
    Python scalar that meets a tensor is first converted to its dtype
    ([of_py]). *)
Class Dtype (F : Type) := {
  of_py : float → F;
  add : F → F → F;
  sub : F → F → F;
  mul : F → F → F;
  div : F → F → F;
  abs : F → F;
  (** [torch.max(a, b)] and [torch.min(a, b)] on two tensors, per element *)
  maximum : F → F → F;
  minimum : F → F → F;
  (** [a != b] *)
  ne : F → F → bool;
  isnan : F → bool;
  (** [torch.norm(t)]: the 2-norm of all the elements of [t] *)
  norm : list F → F;
}.

(** The order [a <= b] of a dtype and what the element-wise [torch.max] and
    [torch.min] guarantee about it: each returns one of its arguments, and
    on two numbers the result is above (below) the second one. *)
Class DtypeOrder (F : Type) `{Dtype F} := {
  leq : F → F → bool;
  leq_number a b : leq a b = true → isnan a = false ∧ isnan b = false;
  maximum_pick a b : maximum a b = a ∨ maximum a b = b;
  minimum_pick a b : minimum a b = a ∨ minimum a b = b;
  maximum_ge_r a b : isnan a = false → isnan b = false → leq b (maximum a b) = true;
  minimum_le_r a b : isnan a = false → isnan b = false → leq (minimum a b) b = true;
}.

(** A storage is addressed by its location in the store. *)
Abbreviation loc := nat (only parsing).

(** A tensor value: its elements in storage order. *)
Abbreviation Tensor F := (list F) (only parsing).

(** The store: the storages allocated so far. *)
Abbreviation Store F := (list (list F)) (only parsing).

Section tensors.
Context {F : Type} `{Dtype F}.

Implicit Types (a b : Tensor F) (h : Store F) (l : loc).

(** A parameter of a module ([nn.Parameter]): [data] refers to a storage, which [param.data.add_]
    writes in place and [param.data = t] rebinds. *)
Record Param := mkParam {
  requires_grad : bool;
  grad : option (Tensor F);
  data : loc;
}.

(** The tensor held at a location. *)
Definition deref h l : Tensor F := h !!! l.

(** A new storage holding [t]; its location is fresh. *)
Definition alloc h (t : Tensor F) : Store F * loc := (h ++ [t], length h).

(** An in-place write to the storage at [l]. *)
Definition store h l (t : Tensor F) : Store F := <[l := t]> h.

(** Element-wise operations on tensors of one shape (a gradient has the
    shape of its parameter, and so have the bounds), and with a scalar. *)
Definition tadd a b : Tensor F := zip_with add a b.
Definition tsub a b : Tensor F := zip_with sub a b.
Definition tmax a b : Tensor F := zip_with maximum a b.
Definition tmin a b : Tensor F := zip_with minimum a b.
Definition tabs a : Tensor F := abs <$> a.
Definition smul (c : F) a : Tensor F := mul c <$> a.
Definition tmuls a (c : F) : Tensor F := (λ x, mul x c) <$> a.
Definition tdivs a (c : F) : Tensor F := (λ x, div x c) <$> a.
End tensors.

Arguments Param F : clear implicits.

End Torch.

(** ** IEEE binary64 tensors *)

Module Float64.
Import Torch.

(** NaN propagates through [torch.max] and [torch.min]. *)
Definition fmaximum (a b : float) : float :=
  if PrimFloat.is_nan a then a
  else if PrimFloat.is_nan b then b
  else if PrimFloat.ltb a b then b else a.

Definition fminimum (a b : float) : float :=
  if PrimFloat.is_nan a then a
  else if PrimFloat.is_nan b then b
  else if PrimFloat.ltb b a then b else a.

Definition fnorm (t : list float) : float :=
  PrimFloat.sqrt (foldl (λ acc x, PrimFloat.add acc (PrimFloat.mul x x)) PrimFloat.zero t).

#[export] Instance float64 : Dtype float := {|
  of_py := id;
  add := PrimFloat.add;
  sub := PrimFloat.sub;
  mul := PrimFloat.mul;
  div := PrimFloat.div;
  abs := PrimFloat.abs;
  maximum := fmaximum;
  minimum := fminimum;
  ne := λ a b, negb (PrimFloat.eqb a b);
  isnan := PrimFloat.is_nan;
  norm := fnorm;
|}.

End Float64.

(** ** class Matcha *)

Module Matcha.
Import Torch.

(** The float literal [0.4] of [__init__], as binary64. *)
Definition lit_0_4 : float := 0x1.999999999999ap-2%float.

Section init.
Context {F : Type} `{Dtype F}.

(** The pretrained backbone as [__init__] uses it.  Modules refer to
    parameter objects by their index in [parameters], so a parameter
    shared by two modules is one object. *)
Record Backbone := mkBackbone {
  num_hidden_layers : Z;
  parameters : list (Param F);
  encoder_layer : list (list nat);
  embeddings : list nat;
  decoder : list nat;
}.

(** [param.requires_grad = False] *)
Definition no_grad (p : Param F) : Param F :=
  mkParam false (grad p) (data p).

(** [for param in <module>.parameters(): param.requires_grad = False] *)
Definition freeze_module (ids : list nat) (ps : list (Param F)) : list (Param F) :=
  foldl (λ ps i, alter no_grad i ps) ps ids.

(** [to_freeze_layer = int(0.4 * backbone_config.num_hidden_layers)] *)
Definition to_freeze_layer (n : Z) : option Z :=
  Py.int_of_float (PrimFloat.mul lit_0_4 (Py.float_of_int n)).

(** The freezing statements of [__init__]: the layers of
    [encoder.layer[:to_freeze_layer]], then the embeddings. *)
Definition freeze (b : Backbone) : option Backbone :=
  k ← to_freeze_layer (num_hidden_layers b);
  let ps1 := foldl (λ ps layer, freeze_module layer ps) (parameters b)
                   (Py.slice_to k (encoder_layer b)) in
  let ps2 := freeze_module (embeddings b) ps1 in
  Some (mkBackbone (num_hidden_layers b) ps2 (encoder_layer b) (embeddings b) (decoder b)).

(** The parameter objects reached through a list of modules. *)
Definition frozen_ids (b : Backbone) (k : Z) : list nat :=
  concat (Py.slice_to k (encoder_layer b)) ++ embeddings b.

(** [int(0.4 * n)] against [⌊4n / 10⌋], on [fuel] consecutive values of
    [n]. *)
Fixpoint freeze_count_ok (fuel : nat) (n : Z) : bool :=
  match fuel with
  | O => true
  | S fuel' =>
      match to_freeze_layer n with
      | Some k => (k =? 4 * n / 10)%Z
      | None => false
      end && freeze_count_ok fuel' (n + 1)
  end.
End init.

Arguments Backbone F : clear implicits.

Section forward.
(** The backbone's own forward pass, which returns an output object with
    a [loss] field. *)
Context {Patches Mask Labels Loss Logits : Type}.

Record Outputs := mkOutputs {
  loss : Loss;
  logits : Logits;
}.

Variable backbone : Patches → Mask → Labels → Outputs.

Definition forward (flattened_patches : Patches) (attention_mask : Mask)
    (labels : Labels) : Loss * gmap string Loss :=
  let outputs := backbone flattened_patches attention_mask labels in
  let loss_main := loss outputs in
  let loss := loss_main in
  let loss_dict : gmap string Loss :=
    <["loss_cls" := loss]> (<["loss_main" := loss_main]> ∅) in
  (loss, loss_dict).
End forward.

End Matcha.

(** ** class AWP *)

Module AWP.
Import Torch.

(** The float literal [1e-6] of [_attack_step], as binary64. *)
Definition lit_1em6 : float := 0x1.0c6f7a0b5ed8dp-20%float.

Section awp.
Context {F : Type} `{Dtype F}.
Context {Batch Loss : Type}.

(** Calls that leave the controller: the model's forward pass, the
    optimizer's [zero_grad] and the accelerator's [backward]. *)
Inductive Event :=
| Forward (batch : Batch)
| ZeroGrad
| Backward (adv_loss : Loss).

(** What the controller shares with its model and optimizer: the store of
    tensor storages, the parameters in the order of
    [model.named_parameters()], and the calls made so far. *)
Record World := mkWorld {
  heap : Store F;
  params : list (string * Param F);
  trace : list Event;
}.

(** The controller's own fields.  The tensors of [backup] become the
    [data] of parameters again, so they are kept by location; the bounds
    of [backup_eps] are only ever read. *)
Record t := mkAWP {
  adv_param : string;
  adv_lr : float;
  adv_eps : float;
  backup : gmap string loc;
  backup_eps : gmap string (Tensor F * Tensor F);
}.

(** [AWP.__init__] *)
Definition init (adv_param : string) (adv_lr adv_eps : float) : t :=
  mkAWP adv_param adv_lr adv_eps ∅ ∅.

(** The model's forward pass, and the gradient slot of the [i]-th
    parameter after [optimizer.zero_grad()] and after
    [accelerator.backward(adv_loss)]: these calls read the world and write
    gradients only. *)
Variable model_call : World → Batch → Loss.
Variable zero_grad : World → nat → option (Tensor F).
Variable backward : World → Loss → nat → option (Tensor F).

Definition set_grads (g : nat → option (Tensor F)) (w : World) : World :=
  mkWorld (heap w)
          (imap (λ i np, (np.1, mkParam (requires_grad np.2) (g i) (data np.2))) (params w))
          (trace w).

Definition log (e : Event) (w : World) : World :=
  mkWorld (heap w) (params w) (trace w ++ [e]).

(** The value of a parameter: the tensor its [data] refers to. *)
Definition value (h : Store F) (p : Param F) : Tensor F := deref h (data p).

(** [param.requires_grad and param.grad is not None and self.adv_param in name] *)
Definition is_target (a : t) (name : string) (p : Param F) : bool :=
  requires_grad p && bool_decide (is_Some (grad p)) && Py.str_in (adv_param a) name.

(** *** [_save] *)

Definition save_param (st : t * Store F) (np : string * Param F) : t * Store F :=
  let '(a, h) := st in
  let '(name, p) := np in
  if is_target a name p then
    match backup a !! name with
    | None =>
        let '(h1, b) := alloc h (value h p) in
        let grad_eps := smul (of_py (adv_eps a)) (tabs (value h1 p)) in
        let bounds := (tsub (deref h1 b) grad_eps, tadd (deref h1 b) grad_eps) in
        (mkAWP (adv_param a) (adv_lr a) (adv_eps a)
               (<[name := b]> (backup a)) (<[name := bounds]> (backup_eps a)), h1)
    | Some _ => (a, h)
    end
  else (a, h).

Definition _save (a : t) (w : World) : t * World :=
  let '(a', h') := foldl save_param (a, heap w) (params w) in
  (a', mkWorld h' (params w) (trace w)).

(** *** [_attack_step] *)

(** [r_at = self.adv_lr * param.grad / (norm1 + e) * (norm2 + e)] *)
Definition r_at (a : t) (g : Tensor F) (norm1 norm2 : F) : Tensor F :=
  tmuls (tdivs (smul (of_py (adv_lr a)) g) (add norm1 (of_py lit_1em6)))
        (add norm2 (of_py lit_1em6)).

(** One iteration of the loop; [None] is the [KeyError] of
    [self.backup_eps[name]]. *)
Definition attack_param (a : t) (h : Store F) (name : string) (p : Param F)
    : option (Store F * Param F) :=
  if is_target a name p then
    match grad p with
    | Some g =>
        let norm1 := norm g in
        let norm2 := norm (value h p) in
        if ne norm1 (of_py 0) && negb (isnan norm1) then
          let h1 := store h (data p) (tadd (value h p) (r_at a g norm1 norm2)) in
          '(lower, upper) ← backup_eps a !! name;
          let '(h2, l) := alloc h1 (tmin (tmax (value h1 p) lower) upper) in
          Some (h2, mkParam (requires_grad p) (grad p) l)
        else Some (h, p)
    | None => Some (h, p)
    end
  else Some (h, p).

Fixpoint attack_loop (a : t) (h : Store F) (ps : list (string * Param F))
    : option (Store F * list (string * Param F)) :=
  match ps with
  | [] => Some (h, [])
  | (name, p) :: rest =>
      '(h1, p') ← attack_param a h name p;
      '(h2, rest') ← attack_loop a h1 rest;
      Some (h2, (name, p') :: rest')
  end.

Definition _attack_step (a : t) (w : World) : option World :=
  '(h', ps') ← attack_loop a (heap w) (params w);
  Some (mkWorld h' ps' (trace w)).

(** *** [_restore] *)

Definition restore_param (a : t) (np : string * Param F) : string * Param F :=
  match backup a !! np.1 with
  | Some b => (np.1, mkParam (requires_grad np.2) (grad np.2) b)
  | None => np
  end.

Definition _restore (a : t) (w : World) : t * World :=
  (mkAWP (adv_param a) (adv_lr a) (adv_eps a) ∅ ∅,
   mkWorld (heap w) (restore_param a <$> params w) (trace w)).

(** *** [attack_backward] *)

Definition attack_backward (a : t) (w : World) (batch : Batch) : option (t * World) :=
  if PrimFloat.eqb (adv_lr a) 0%float then Some (a, w)
  else
    let '(a1, w1) := _save a w in
    w2 ← _attack_step a1 w1;
    let adv_loss := model_call w2 batch in
    let w3 := log (Forward batch) w2 in
    let w4 := log ZeroGrad (set_grads (zero_grad w3) w3) in
    let w5 := log (Backward adv_loss) (set_grads (backward w4 adv_loss) w4) in
    Some (_restore a1 w5).

(** *** The vocabulary of the properties *)

Implicit Types (a : t) (w : World) (h : Store F) (p : Param F)
  (ps : list (string * Param F)) (name : string) (l : loc).

(** Every parameter's [data] refers to an allocated storage. *)
Definition valid_locs h ps : Prop :=
  Forall (λ np, data np.2 < length h) ps.

(** [named_parameters()] yields each parameter once, under its own name,
    and every [data] is allocated. *)
Definition wf_world w : Prop :=
  valid_locs (heap w) (params w) ∧ NoDup (params w).*1.

(** The configuration of a controller, which no method assigns. *)
Definition same_config a a' : Prop :=
  adv_param a' = adv_param a ∧ adv_lr a' = adv_lr a ∧ adv_eps a' = adv_eps a.

(** The clamp pair [_save] computes from a snapshot [v]. *)
Definition bounds_of a (v : Tensor F) : Tensor F * Tensor F :=
  let grad_eps := smul (of_py (adv_eps a)) (tabs v) in
  (tsub v grad_eps, tadd v grad_eps).

(** The guard [norm1 != 0 and not torch.isnan(norm1)] on the gradient. *)
Definition perturbs p : bool :=
  match grad p with
  | Some g => ne (norm g) (of_py 0) && negb (isnan (norm g))
  | None => false
  end.

(** [torch.min(torch.max(t, lower), upper)] *)
Definition clamp (lower upper t : Tensor F) : Tensor F := tmin (tmax t lower) upper.

(** The storages of a list of parameters. *)
Definition locs ps : list loc := (λ np, data np.2) <$> ps.

(** Distinct parameters own distinct storages. *)
Definition unshared w : Prop := NoDup (locs (params w)).

(** Only gradient slots and the trace differ between [w] and [w']. *)
Definition grads_only w w' : Prop :=
  heap w' = heap w
  ∧ ∀ i name p, params w !! i = Some (name, p) →
      ∃ g, params w' !! i = Some (name, mkParam (requires_grad p) g (data p)).

(** The world [attack_backward] hands to [_restore]. *)
Definition after_backward w2 (batch : Batch) : World :=
  let adv_loss := model_call w2 batch in
  let w3 := log (Forward batch) w2 in
  let w4 := log ZeroGrad (set_grads (zero_grad w3) w3) in
  log (Backward adv_loss) (set_grads (backward w4 adv_loss) w4).

(** The update in the words of the specification:
    [step_size · grad / (‖grad‖ + ε₀) · (‖param‖ + ε₀)] with [ε₀ = 1e-6]. *)
Definition spec_update (step_size : F) (g : Tensor F) (norm_grad norm_param : F)
    : Tensor F :=
  let eps0 := of_py lit_1em6 in
  (λ x, mul (div (mul step_size x) (add norm_grad eps0)) (add norm_param eps0)) <$> g.

(** Every target has its bounds: the state [_save] leaves. *)
Definition covered a w : Prop :=
  ∀ name p, (name, p) ∈ params w → is_target a name p = true →
            is_Some (backup_eps a !! name).

(** Where a controller is: outside a cycle, or between a [_save] and the
    next [_restore]. *)
Inductive phase := Idle | InCycle.

(** The states a controller reaches from [__init__] by calls of its
    methods, on whatever world they find. *)
Inductive reach : phase → t → Prop :=
| reach_init adv_param adv_lr adv_eps :
    reach Idle (init adv_param adv_lr adv_eps)
| reach_save ph a w :
    reach ph a → reach InCycle (_save a w).1
| reach_attack_step ph a w w' :
    reach ph a → _attack_step a w = Some w' → reach ph a
| reach_restore ph a w :
    reach ph a → reach Idle (_restore a w).1.
End awp.

Arguments Event : clear implicits.
Arguments World F Batch Loss : clear implicits.
Arguments reach {F _} Batch Loss _ _.
Arguments t F : clear implicits.

End AWP.

(** ** A small model, run *)

Module Example.
Import Torch Float64 AWP.

(** A model with two weights and a bias; the gradient of [m.weight] is
    zero. *)
Definition weight_l : Param float := mkParam true (Some [1%float]) 0.
Definition bias_l : Param float := mkParam true (Some [1%float; 1%float]) 1.
Definition weight_m : Param float := mkParam true (Some [0%float]) 2.

Definition world : World float unit float :=
  mkWorld [[2%float]; [1%float; 2%float]; [5%float]]
          [("l.weight", weight_l); ("l.bias", bias_l); ("m.weight", weight_m)]
          [].

(** A forward pass with loss 0, a [zero_grad] that empties every slot, and
    a backward pass that leaves a gradient of ones. *)
Definition model_call (w : World float unit float) (batch : unit) : float := 0%float.
Definition zero_grad (w : World float unit float) (i : nat) : option (list float) := None.
Definition backward (w : World float unit float) (adv_loss : float) (i : nat)
    : option (list float) :=
  (λ np, (λ _, 1%float) <$> value (heap w) np.2) <$> params w !! i.

(** The controller with its defaults ([adv_eps] is the literal [0.0001]),
    with a step size of zero, and with a negative tolerance. *)
Definition awp : AWP.t float := init "weight" 1%float 0x1.a36e2eb1c432dp-14%float.
Definition awp_off : AWP.t float := init "weight" 0%float 0x1.a36e2eb1c432dp-14%float.
Definition awp_neg : AWP.t float := init "weight" 1%float (-0.5)%float.

(** A pretrained backbone of ten encoder layers with two parameters each,
    one embedding parameter and two decoder parameters. *)
Definition backbone10 : Matcha.Backbone float :=
  Matcha.mkBackbone 10
    (replicate 23 (mkParam true None 0))
    ((λ i, [2 * i; 2 * i + 1]) <$> seq 0 10)
    [20]
    [21; 22].

End Example.

(** * Properties *)

(** ** Strings *)

Section strings.
Import Py.

Lemma starts_with_spec sub s :
  starts_with sub s = true ↔ ∃ post, s = (sub +:+ post)%string.
Proof.
  revert s. induction sub as [|a sub IH]; intros s; simpl.
  - split; [intros _; by exists s | done].
  - destruct s as [|b s].
    + split; [done | intros [post Hp]; discriminate].
    + rewrite andb_true_iff, bool_decide_eq_true, IH. split.
      * intros [-> [post ->]]. by exists post.
      * intros [post Hp]. injection Hp as -> ->. eauto.
Qed.

(** [sub in s] holds exactly when [s] is [pre + sub + post]. *)
Lemma str_in_spec sub s :
  str_in sub s = true ↔ ∃ pre post, s = (pre +:+ sub +:+ post)%string.
Proof.
  induction s as [|b s IH]; simpl.
  - rewrite orb_false_r, starts_with_spec. split.
    + intros [post Hp]. by exists EmptyString, post.
    + intros [pre [post Hp]]. destruct pre; [by exists post | discriminate].
  - rewrite orb_true_iff, starts_with_spec, IH. split.
    + intros [[post Hp] | [pre [post Hp]]].
      * by exists EmptyString, post.
      * exists (String b pre), post. simpl. by rewrite Hp.
    + intros [pre [post Hp]]. destruct pre as [|c pre]; simpl in Hp.
      * left. by exists post.
      * right. injection Hp as -> ->. eauto.
Qed.
End strings.

(** ** The controller *)

Section awp_properties.
Import Torch AWP.
Context {F : Type} `{Dtype F} {Batch Loss : Type}.
Variable model_call : World F Batch Loss → Batch → Loss.
Variable zero_grad : World F Batch Loss → nat → option (Tensor F).
Variable backward : World F Batch Loss → Loss → nat → option (Tensor F).

Implicit Types (a : AWP.t F) (w : World F Batch Loss) (h : Store F)
  (p : Param F) (ps : list (string * Param F)) (name : string) (l : loc).

Abbreviation after_backward := (AWP.after_backward model_call zero_grad backward).

Lemma is_target_config a a' name p :
  same_config a a' → is_target a' name p = is_target a name p.
Proof. intros (Hp & _ & _). unfold is_target. by rewrite Hp. Qed.

Lemma deref_alloc h (v : Tensor F) : deref (h ++ [v]) (length h) = v.
Proof.
  unfold deref. apply list_lookup_total_correct.
  by rewrite lookup_app_r, Nat.sub_diag by lia.
Qed.

Lemma deref_app_l h (ext : Store F) l : l < length h → deref (h ++ ext) l = deref h l.
Proof. intros Hl. unfold deref. by apply lookup_total_app_l. Qed.

Lemma deref_snoc_same h l : deref (h ++ [deref h l]) l = deref h l.
Proof.
  unfold deref. destruct (decide (l < length h)) as [Hl|Hl].
  - by apply lookup_total_app_l.
  - rewrite (list_lookup_total_alt h), (lookup_ge_None_2 h) by lia. simpl.
    rewrite (list_lookup_total_alt (h ++ _)).
    destruct (decide (l = length h)) as [->|].
    + by rewrite lookup_app_r, Nat.sub_diag by lia.
    + by rewrite lookup_ge_None_2 by (rewrite length_app; simpl; lia).
Qed.

(** One iteration of [_save], case by case. *)
Lemma save_param_fresh a h name p :
  is_target a name p = true → backup a !! name = None →
  save_param (a, h) (name, p) =
    (mkAWP (adv_param a) (adv_lr a) (adv_eps a)
           (<[name := length h]> (backup a))
           (<[name := bounds_of a (value h p)]> (backup_eps a)),
     h ++ [value h p]).
Proof.
  intros Ht Hb. unfold save_param, alloc, bounds_of, value. rewrite Ht, Hb.
  by rewrite deref_alloc, deref_snoc_same.
Qed.

Lemma save_param_skip a h name p :
  is_target a name p = false ∨ is_Some (backup a !! name) →
  save_param (a, h) (name, p) = (a, h).
Proof.
  intros [Ht | [b Hb]]; unfold save_param.
  - by rewrite Ht.
  - rewrite Hb. by destruct (is_target a name p).
Qed.

Lemma save_param_cases a h name p :
  (save_param (a, h) (name, p) = (a, h)
   ∧ (is_target a name p = false ∨ is_Some (backup a !! name)))
  ∨ (save_param (a, h) (name, p) =
       (mkAWP (adv_param a) (adv_lr a) (adv_eps a)
              (<[name := length h]> (backup a))
              (<[name := bounds_of a (value h p)]> (backup_eps a)),
        h ++ [value h p])
     ∧ is_target a name p = true ∧ backup a !! name = None).
Proof.
  destruct (is_target a name p) eqn:Ht.
  - destruct (backup a !! name) as [b|] eqn:Hb.
    + left. split; [apply save_param_skip | ]; eauto.
    + right. split; [by apply save_param_fresh | done].
  - left. split; [apply save_param_skip | ]; eauto.
Qed.

Lemma valid_locs_app h (ext : Store F) ps : valid_locs h ps → valid_locs (h ++ ext) ps.
Proof.
  unfold valid_locs. intros Hv. eapply Forall_impl; [done|].
  intros np Hl. rewrite length_app. simpl in *. lia.
Qed.

(** [_save] keeps the configuration, only allocates, and never overwrites
    an entry of [backup] nor the bounds stored under its name. *)
Lemma save_loop_mono ps a h a' h' :
  foldl save_param (a, h) ps = (a', h') →
  same_config a a'
  ∧ (∃ ext, h' = h ++ ext)
  ∧ (∀ name l, backup a !! name = Some l →
       backup a' !! name = Some l ∧ backup_eps a' !! name = backup_eps a !! name).
Proof.
  revert a h. induction ps as [|[n0 p0] ps IH]; intros a h; cbn [foldl].
  - intros [= <- <-]. split; [done|]. split; [by exists []; rewrite app_nil_r | done].
  - destruct (save_param_cases a h n0 p0) as [[-> _] | (-> & Ht & Hb)]; [by apply IH|].
    intros Hf. apply IH in Hf as (Hc & [ext ->] & Hk). split; [|split].
    + exact Hc.
    + exists ([value h p0] ++ ext). by rewrite app_assoc.
    + intros name l Hl. assert (n0 ≠ name) by congruence.
      destruct (Hk name l) as [-> ->]; simpl; by rewrite ?lookup_insert_ne.
Qed.

(** The names [_save] adds are names of targets. *)
Lemma save_loop_new ps a h a' h' name l :
  foldl save_param (a, h) ps = (a', h') →
  backup a' !! name = Some l →
  backup a !! name = Some l
  ∨ (backup a !! name = None ∧ ∃ p, (name, p) ∈ ps ∧ is_target a name p = true).
Proof.
  revert a h. induction ps as [|[n0 p0] ps IH]; intros a h; cbn [foldl].
  - intros [= <- <-]. by left.
  - destruct (save_param_cases a h n0 p0) as [[-> _] | (-> & Ht & Hb)]; intros Hf Hl.
    + destruct (IH _ _ Hf Hl) as [?|(? & p & Hin & ?)]; [by left|].
      right. split; [done|]. exists p. split; [by right | done].
    + destruct (IH _ _ Hf Hl) as [Hs|(Hn & p & Hin & Hp)]; simpl in *.
      * destruct (decide (n0 = name)) as [->|Hne].
        -- right. split; [done|]. exists p0. split; [by left | done].
        -- left. by rewrite lookup_insert_ne in Hs.
      * destruct (decide (n0 = name)) as [->|Hne].
        -- by rewrite lookup_insert_eq in Hn.
        -- rewrite lookup_insert_ne in Hn by done. right. split; [done|].
           exists p. split; [by right | done].
Qed.

(** After [_save] every target is backed up. *)
Lemma save_loop_covers ps a h a' h' name p :
  foldl save_param (a, h) ps = (a', h') →
  (name, p) ∈ ps → is_target a name p = true →
  is_Some (backup a' !! name).
Proof.
  revert a h. induction ps as [|[n0 p0] ps IH]; intros a h; cbn [foldl].
  - intros _ Hin. by apply elem_of_nil in Hin.
  - intros Hf Hin Ht. apply elem_of_cons in Hin as [[= <- <-]|Hin].
    + destruct (save_param_cases a h name p) as [[Hs [?|[b Hb]]] | (Hs & _ & _)];
        [congruence | | ]; rewrite Hs in Hf;
        apply save_loop_mono in Hf as (_ & _ & Hk).
      * destruct (Hk name b Hb) as [-> _]. eauto.
      * destruct (Hk name (length h)) as [-> _]; [by simpl; rewrite lookup_insert_eq | eauto].
    + destruct (save_param_cases a h n0 p0) as [[Hs _] | (Hs & _ & _)]; rewrite Hs in Hf.
      * by eapply IH.
      * eapply IH; [done..|]. by rewrite (is_target_config a) by (by repeat split).
Qed.

(** A loop of [_save] over targets that are all backed up changes nothing. *)
Lemma save_loop_skip ps a h :
  (∀ name p, (name, p) ∈ ps → is_target a name p = true → is_Some (backup a !! name)) →
  foldl save_param (a, h) ps = (a, h).
Proof.
  induction ps as [|[n0 p0] ps IH]; intros Hall; cbn [foldl]; [done|].
  rewrite save_param_skip.
  - apply IH. intros name p Hin. apply Hall. by right.
  - destruct (is_target a n0 p0) eqn:Ht; [right | by left].
    apply (Hall n0 p0); [by left | done].
Qed.

(** The two mappings keep the same names through [_save]. *)
Lemma save_loop_dom ps a h a' h' :
  foldl save_param (a, h) ps = (a', h') →
  dom (backup a) = dom (backup_eps a) →
  dom (backup a') = dom (backup_eps a').
Proof.
  revert a h. induction ps as [|[n0 p0] ps IH]; intros a h; cbn [foldl].
  - by intros [= <- <-].
  - destruct (save_param_cases a h n0 p0) as [[-> _] | (-> & _ & _)]; intros Hf Hd.
    + by eapply IH.
    + eapply IH; [done|]. simpl. by rewrite !dom_insert_L, Hd.
Qed.

(** What [_save] stores for a target that was not backed up: a fresh
    storage holding the parameter's value, and the bounds around it. *)
Lemma save_loop_snapshot ps a h a' h' i name p :
  foldl save_param (a, h) ps = (a', h') →
  valid_locs h ps → NoDup ps.*1 →
  ps !! i = Some (name, p) → is_target a name p = true → backup a !! name = None →
  ∃ l, backup a' !! name = Some l ∧ length h ≤ l
       ∧ h' !! l = Some (value h p)
       ∧ backup_eps a' !! name = Some (bounds_of a (value h p)).
Proof.
  revert a h i. induction ps as [|[n0 p0] ps IH]; intros a h i; cbn [foldl]; [done|].
  intros Hf Hv Hnd Hi Ht Hb.
  apply Forall_cons in Hv as [Hv0 Hv]. rewrite fmap_cons in Hnd.
  apply NoDup_cons in Hnd as [Hn0 Hnd]. simpl in Hv0, Hn0.
  destruct i as [|i]; simpl in Hi.
  - injection Hi as -> ->. rewrite save_param_fresh in Hf by done.
    apply save_loop_mono in Hf as (_ & [ext ->] & Hk).
    exists (length h). destruct (Hk name (length h)) as [-> ->];
      [by simpl; rewrite lookup_insert_eq|]. simpl.
    split; [done|]. split; [done|]. split; [|by rewrite lookup_insert_eq].
    rewrite <- app_assoc. cbn [app]. by apply list_lookup_middle.
  - assert (n0 ≠ name) as Hne.
    { intros ->. apply Hn0. apply list_elem_of_fmap. exists (name, p).
      split; [done|]. by eapply list_elem_of_lookup_2. }
    destruct (save_param_cases a h n0 p0) as [[Hs _] | (Hs & _ & _)]; rewrite Hs in Hf.
    + by eapply IH.
    + assert (data p < length h) as Hp.
      { eapply Forall_lookup_1 in Hv; [|done]. done. }
      destruct (IH _ _ i Hf) as (l & Hl & Hle & Hh & He).
      * by apply valid_locs_app.
      * done.
      * done.
      * by rewrite (is_target_config a) by (by repeat split).
      * simpl. by rewrite lookup_insert_ne.
      * exists l. split; [done|]. rewrite length_app in Hle. simpl in Hle.
        split; [lia|]. unfold value in Hh, He |- *.
        rewrite deref_app_l in Hh, He by done. by split.
Qed.

(** *** [_attack_step] *)

Lemma attack_param_skip a h name p :
  is_target a name p && perturbs p = false →
  attack_param a h name p = Some (h, p).
Proof.
  unfold attack_param, perturbs. destruct (is_target a name p); [|done].
  destruct (grad p) as [g|]; [|done]. simpl. by intros ->.
Qed.

Lemma attack_param_hit a h name p g lower upper :
  is_target a name p = true → grad p = Some g → perturbs p = true →
  backup_eps a !! name = Some (lower, upper) →
  data p < length h →
  attack_param a h name p =
    Some (<[data p := tadd (value h p) (r_at a g (norm g) (norm (value h p)))]> h
            ++ [clamp lower upper (tadd (value h p) (r_at a g (norm g) (norm (value h p))))],
          mkParam (requires_grad p) (grad p) (length h)).
Proof.
  intros Ht Hg Hp Hb Hl. unfold attack_param, perturbs in *. rewrite Ht, Hg in *.
  rewrite Hp, Hb. simpl. unfold alloc, store, clamp, value at 3, deref.
  by rewrite list_lookup_total_insert_eq, length_insert by done.
Qed.

Lemma attack_param_cases a h name p h1 p1 :
  attack_param a h name p = Some (h1, p1) → data p < length h →
  (is_target a name p && perturbs p = false ∧ h1 = h ∧ p1 = p)
  ∨ (∃ g lower upper,
       is_target a name p = true ∧ grad p = Some g ∧ perturbs p = true
       ∧ backup_eps a !! name = Some (lower, upper)
       ∧ h1 = <[data p := tadd (value h p) (r_at a g (norm g) (norm (value h p)))]> h
                ++ [clamp lower upper (tadd (value h p) (r_at a g (norm g) (norm (value h p))))]
       ∧ p1 = mkParam (requires_grad p) (grad p) (length h)).
Proof.
  intros Ha Hl. destruct (is_target a name p && perturbs p) eqn:Hc.
  - right. apply andb_true_iff in Hc as [Ht Hp].
    destruct (grad p) as [g|] eqn:Hg; [|by unfold perturbs in Hp; rewrite Hg in Hp].
    destruct (backup_eps a !! name) as [[lower upper]|] eqn:Hb.
    + rewrite (attack_param_hit a h name p g lower upper) in Ha by done.
      injection Ha as <- <-. exists g, lower, upper. by rewrite Hg.
    + unfold attack_param, perturbs in *. rewrite Ht, Hg in *.
      rewrite Hp, Hb in Ha. done.
  - left. rewrite attack_param_skip in Ha by done. by injection Ha as <- <-.
Qed.

(** One iteration keeps the parameter's name, flag and gradient, grows
    the store, and writes no storage but the parameter's own. *)
Lemma attack_param_frame a h name p h1 p1 :
  attack_param a h name p = Some (h1, p1) → data p < length h →
  requires_grad p1 = requires_grad p ∧ grad p1 = grad p
  ∧ length h ≤ length h1
  ∧ (∀ l, l < length h → l ≠ data p → h1 !! l = h !! l).
Proof.
  intros Ha Hl.
  destruct (attack_param_cases _ _ _ _ _ _ Ha Hl)
    as [(_ & -> & ->) | (g & lo & hi & _ & _ & _ & _ & -> & ->)]; [done|].
  simpl. rewrite length_app, length_insert. repeat split; [lia|].
  intros l Hlt Hne. rewrite lookup_app_l by (by rewrite length_insert).
  by rewrite list_lookup_insert_ne.
Qed.

Lemma attack_loop_frame ps a h h' ps' :
  attack_loop a h ps = Some (h', ps') → valid_locs h ps →
  ps'.*1 = ps.*1
  ∧ length h ≤ length h'
  ∧ (∀ l, l < length h → l ∉ locs ps → h' !! l = h !! l).
Proof.
  revert h h' ps'. induction ps as [|[n0 p0] ps IH]; intros h h' ps'; cbn [attack_loop].
  - by intros [= <- <-].
  - intros Ha Hv. apply Forall_cons in Hv as [Hv0 Hv]. simpl in Hv0.
    destruct (attack_param a h n0 p0) as [[h1 p1]|] eqn:E1; [|done]. simpl in Ha.
    destruct (attack_loop a h1 ps) as [[h2 rest]|] eqn:E2; [|done]. simpl in Ha.
    injection Ha as <- <-.
    destruct (attack_param_frame _ _ _ _ _ _ E1 Hv0) as (_ & _ & Hlen & Hfr).
    destruct (IH _ _ _ E2) as (Hn & Hlen2 & Hfr2).
    { eapply Forall_impl; [done|]. intros np ?. simpl in *. lia. }
    split; [by rewrite !fmap_cons, Hn|]. split; [lia|].
    intros l Hlt Hnin. unfold locs in Hnin. rewrite fmap_cons in Hnin.
    apply not_elem_of_cons in Hnin as [Hne Hnin]. simpl in Hne.
    rewrite Hfr2 by (done || lia). by apply Hfr.
Qed.

(** [_attack_step] raises no [KeyError] when every target has its bounds. *)
Lemma attack_loop_total ps a h :
  valid_locs h ps →
  (∀ name p, (name, p) ∈ ps → is_target a name p = true →
             is_Some (backup_eps a !! name)) →
  is_Some (attack_loop a h ps).
Proof.
  revert h. induction ps as [|[n0 p0] ps IH]; intros h Hv Hall; cbn [attack_loop]; [done|].
  apply Forall_cons in Hv as [Hv0 Hv]. simpl in Hv0.
  assert (∃ h1 p1, attack_param a h n0 p0 = Some (h1, p1)) as (h1 & p1 & E1).
  { destruct (is_target a n0 p0 && perturbs p0) eqn:Hc.
    - apply andb_true_iff in Hc as [Ht Hp].
      destruct (Hall n0 p0) as [[lo hi] Hb]; [by left | done |].
      destruct (grad p0) as [g|] eqn:Hg; [|by unfold perturbs in Hp; rewrite Hg in Hp].
      erewrite attack_param_hit; eauto.
    - rewrite attack_param_skip; eauto. }
  rewrite E1. simpl.
  destruct (attack_param_frame _ _ _ _ _ _ E1 Hv0) as (_ & _ & Hlen & _).
  destruct (IH h1) as [[h2 rest] ->]; [| |done].
  - eapply Forall_impl; [done|]. intros np ?. simpl in *. lia.
  - intros name p Hin. apply Hall. by right.
Qed.

(** What [_attack_step] does to the [i]-th parameter: nothing, or the
    update followed by the clamp, the result being a new storage. *)
Lemma attack_loop_lookup ps a h h' ps' i name p :
  attack_loop a h ps = Some (h', ps') →
  valid_locs h ps → NoDup (locs ps) →
  ps !! i = Some (name, p) →
  ∃ p', ps' !! i = Some (name, p')
    ∧ requires_grad p' = requires_grad p ∧ grad p' = grad p
    ∧ ((is_target a name p && perturbs p = false ∧ p' = p
        ∧ value h' p' = value h p)
       ∨ (∃ g lower upper,
            is_target a name p = true ∧ grad p = Some g ∧ perturbs p = true
            ∧ backup_eps a !! name = Some (lower, upper)
            ∧ length h ≤ data p'
            ∧ value h' p' =
                clamp lower upper
                  (tadd (value h p) (r_at a g (norm g) (norm (value h p)))))).
Proof.
  revert h h' ps' i. induction ps as [|[n0 p0] ps IH]; intros h h' ps' i; [done|].
  cbn [attack_loop]. intros Ha Hv Hnd Hi.
  apply Forall_cons in Hv as [Hv0 Hv]. simpl in Hv0.
  unfold locs in Hnd. rewrite fmap_cons in Hnd. apply NoDup_cons in Hnd as [Hn0 Hnd].
  simpl in Hn0.
  destruct (attack_param a h n0 p0) as [[h1 p1]|] eqn:E1; [|done]. simpl in Ha.
  destruct (attack_loop a h1 ps) as [[h2 rest]|] eqn:E2; [|done]. simpl in Ha.
  injection Ha as <- <-.
  destruct (attack_param_frame _ _ _ _ _ _ E1 Hv0) as (Hrg & Hgr & Hlen & Hfr).
  assert (valid_locs h1 ps) as Hv1.
  { eapply Forall_impl; [done|]. intros np ?. simpl in *. lia. }
  destruct (attack_loop_frame _ _ _ _ _ E2 Hv1) as (_ & Hlen2 & Hfr2).
  destruct i as [|i]; simpl in Hi.
  - injection Hi as -> ->. exists p1. split; [done|]. split; [done|]. split; [done|].
    destruct (attack_param_cases _ _ _ _ _ _ E1 Hv0)
      as [(Hc & -> & ->) | (g & lo & hi & Ht & Hg & Hp & Hb & -> & ->)].
    + left. split; [done|]. split; [done|]. unfold value, deref.
      rewrite !list_lookup_total_alt. by rewrite Hfr2.
    + right. exists g, lo, hi. do 4 (split; [done|]). simpl. split; [done|].
      unfold value at 1, deref. simpl. rewrite list_lookup_total_alt, Hfr2.
      * by rewrite list_lookup_middle by (by rewrite length_insert).
      * rewrite length_app, length_insert. simpl. lia.
      * intros Hin. apply list_elem_of_fmap in Hin as (np & Hnp & Hin).
        eapply Forall_forall in Hv; [|done]. simpl in Hv. lia.
  - destruct (IH _ _ _ _ E2 Hv1 Hnd Hi) as (p' & Hi' & Hrg' & Hgr' & Hcase).
    assert (data p < length h) as Hp by exact (Forall_lookup_1 _ _ _ _ Hv Hi).
    assert (data p ≠ data p0) as Hne.
    { intros Heq. apply Hn0. apply list_elem_of_fmap. exists (name, p).
      split; [done|]. by eapply list_elem_of_lookup_2. }
    assert (value h1 p = value h p) as Hval.
    { unfold value, deref. rewrite !list_lookup_total_alt. by rewrite Hfr. }
    exists p'. split; [done|]. split; [done|]. split; [done|].
    rewrite Hval in Hcase.
    destruct Hcase as [?|(g & lo & hi & ? & ? & ? & ? & ? & ?)]; [by left|].
    right. exists g, lo, hi. do 4 (split; [done|]). split; [lia | done].
Qed.

(** *** The calls between [_attack_step] and [_restore] *)

Lemma grads_only_set_grads g w : grads_only w (set_grads g w).
Proof.
  split; [done|]. intros i name p Hi. exists (g i). unfold set_grads. simpl.
  by rewrite list_lookup_imap, Hi.
Qed.

Lemma grads_only_log e w : grads_only w (log e w).
Proof.
  split; [done|]. intros i name p Hi. exists (grad p). simpl. rewrite Hi. by destruct p.
Qed.

Lemma grads_only_trans w1 w2 w3 :
  grads_only w1 w2 → grads_only w2 w3 → grads_only w1 w3.
Proof.
  intros [Hh1 Hp1] [Hh2 Hp2]. split; [congruence|]. intros i name p Hi.
  destruct (Hp1 _ _ _ Hi) as [g1 Hi1]. destruct (Hp2 _ _ _ Hi1) as [g2 Hi2]. eauto.
Qed.

Lemma grads_only_after_backward w2 batch : grads_only w2 (after_backward w2 batch).
Proof.
  unfold after_backward. cbv zeta.
  eapply grads_only_trans; [|apply grads_only_log].
  eapply grads_only_trans; [|apply grads_only_set_grads].
  eapply grads_only_trans; [|apply grads_only_log].
  eapply grads_only_trans; [|apply grads_only_set_grads].
  apply grads_only_log.
Qed.

Lemma attack_backward_unfold a w batch :
  PrimFloat.eqb (adv_lr a) 0 = false →
  attack_backward model_call zero_grad backward a w batch =
    w2 ← _attack_step (_save a w).1 (_save a w).2;
    Some (_restore (_save a w).1 (after_backward w2 batch)).
Proof.
  intros Hlr. unfold attack_backward. rewrite Hlr. by destruct (_save a w) as [a1 w1].
Qed.

(** *** The three phases on one parameter *)

Lemma save_unfold a w :
  ∃ a1 h1, foldl save_param (a, heap w) (params w) = (a1, h1)
           ∧ _save a w = (a1, mkWorld h1 (params w) (trace w)).
Proof.
  unfold _save. destruct (foldl save_param (a, heap w) (params w)) as [a1 h1]. eauto.
Qed.

Lemma NoDup_names_eq ps i j name p q :
  NoDup ps.*1 → ps !! i = Some (name, p) → ps !! j = Some (name, q) → p = q.
Proof.
  intros Hnd Hi Hj.
  assert (i = j) as ->; [|congruence].
  eapply NoDup_lookup; [done| |]; by rewrite list_lookup_fmap, ?Hi, ?Hj.
Qed.

(** The snapshot of a target outlives [_attack_step], whatever storages
    the parameters share: the step writes old storages in place and
    allocates new ones, and the snapshot is neither. *)
Lemma save_attack_snapshot a w i name p :
  wf_world w → params w !! i = Some (name, p) → backup a !! name = None →
  is_target a name p = true →
  ∀ a1 w1 w2, _save a w = (a1, w1) → _attack_step a1 w1 = Some w2 →
  ∃ l p2, backup a1 !! name = Some l
          ∧ deref (heap w2) l = value (heap w) p
          ∧ backup_eps a1 !! name = Some (bounds_of a (value (heap w) p))
          ∧ params w2 !! i = Some (name, p2).
Proof.
  intros [Hv Hnn] Hi Hb Ht a1 w1 w2 Hs Ha.
  destruct (save_unfold a w) as (a1' & h1 & Hf & Hs'). rewrite Hs' in Hs.
  injection Hs as <- <-. unfold _attack_step in Ha. simpl in Ha.
  destruct (attack_loop a1' h1 (params w)) as [[h2 ps2]|] eqn:E; [|done].
  simpl in Ha. injection Ha as <-. simpl.
  destruct (save_loop_mono _ _ _ _ _ Hf) as (_ & [ext ->] & _).
  assert (valid_locs (heap w ++ ext) (params w)) as Hv1 by by apply valid_locs_app.
  destruct (attack_loop_frame _ _ _ _ _ E Hv1) as (Hnames & _ & Hfr).
  destruct (save_loop_snapshot _ _ _ _ _ _ _ _ Hf Hv Hnn Hi Ht Hb)
    as (l & Hl & Hle & Hh & He).
  assert (ps2.*1 !! i = Some name) as Hn2 by (by rewrite Hnames, list_lookup_fmap, Hi).
  rewrite list_lookup_fmap in Hn2.
  destruct (ps2 !! i) as [[n2 p2]|] eqn:Hi2; [|done]. injection Hn2 as ->.
  exists l, p2. split; [done|]. split; [|done].
  unfold deref. rewrite list_lookup_total_alt, Hfr, Hh; [done | |].
  - by eapply lookup_lt_Some.
  - intros Hin. apply list_elem_of_fmap in Hin as (np & -> & Hin).
    eapply Forall_forall in Hv; [|done]. simpl in Hv. lia.
Qed.

(** [_save] followed by [_attack_step], seen from the [i]-th parameter:
    a target is snapshot in a storage that [_attack_step] leaves alone;
    any other parameter is not backed up; a parameter that is not
    perturbed keeps its storage and its value; a perturbed one gets the
    clamped sum. *)
Lemma save_attack_param a w i name p :
  wf_world w → unshared w →
  params w !! i = Some (name, p) → backup a !! name = None →
  ∀ a1 w1 w2, _save a w = (a1, w1) → _attack_step a1 w1 = Some w2 →
  same_config a a1 ∧ params w1 = params w ∧ value (heap w1) p = value (heap w) p
  ∧ ∃ p2, params w2 !! i = Some (name, p2)
      ∧ requires_grad p2 = requires_grad p ∧ grad p2 = grad p
      ∧ (is_target a name p = true →
           ∃ l, backup a1 !! name = Some l
                ∧ deref (heap w2) l = value (heap w) p
                ∧ backup_eps a1 !! name = Some (bounds_of a (value (heap w) p)))
      ∧ (is_target a name p = false → backup a1 !! name = None)
      ∧ (is_target a name p && perturbs p = false →
           p2 = p ∧ value (heap w2) p2 = value (heap w) p)
      ∧ (is_target a name p && perturbs p = true →
           ∃ g, grad p = Some g
                ∧ value (heap w2) p2 =
                    clamp (bounds_of a (value (heap w) p)).1
                          (bounds_of a (value (heap w) p)).2
                          (tadd (value (heap w) p)
                                (r_at a g (norm g) (norm (value (heap w) p))))).
Proof.
  intros [Hv Hnn] Hnl Hi Hb a1 w1 w2 Hs Ha.
  destruct (save_unfold a w) as (a1' & h1 & Hf & Hs'). rewrite Hs' in Hs.
  injection Hs as <- <-. unfold _attack_step in Ha. simpl in Ha.
  destruct (attack_loop a1' h1 (params w)) as [[h2 ps2]|] eqn:E; [|done].
  simpl in Ha. injection Ha as <-. simpl.
  destruct (save_loop_mono _ _ _ _ _ Hf) as (Hc & [ext ->] & _).
  assert (data p < length (heap w)) as Hp by exact (Forall_lookup_1 _ _ _ _ Hv Hi).
  assert (valid_locs (heap w ++ ext) (params w)) as Hv1 by by apply valid_locs_app.
  assert (value (heap w ++ ext) p = value (heap w) p) as Hval1
    by (by unfold value; rewrite deref_app_l).
  destruct (attack_loop_frame _ _ _ _ _ E Hv1) as (_ & _ & Hfr).
  destruct (attack_loop_lookup _ _ _ _ _ _ _ _ E Hv1 Hnl Hi)
    as (p2 & Hi2 & Hrg & Hgr & Hcase).
  do 3 (split; [done|]).
  exists p2. do 3 (split; [done|]).
  rewrite (is_target_config a a1'), Hval1 in Hcase by done.
  assert (is_target a name p = true →
           ∃ l, backup a1' !! name = Some l
                ∧ deref h2 l = value (heap w) p
                ∧ backup_eps a1' !! name = Some (bounds_of a (value (heap w) p)))
    as Hsnap.
  { intros Ht.
    destruct (save_loop_snapshot _ _ _ _ _ _ _ _ Hf Hv Hnn Hi Ht Hb)
      as (l & Hl & Hle & Hh & He).
    exists l. split; [done|]. split; [|done].
    unfold deref. rewrite list_lookup_total_alt, Hfr, Hh; [done | |].
    + by eapply lookup_lt_Some.
    + intros Hin. apply list_elem_of_fmap in Hin as (np & -> & Hin).
      eapply Forall_forall in Hv; [|done]. simpl in Hv. lia. }
  split; [done|]. split; [|split].
  - intros Ht. destruct (backup a1' !! name) as [l|] eqn:Hl; [|done].
    destruct (save_loop_new _ _ _ _ _ _ _ Hf Hl) as [?|(_ & q & Hin & Hq)]; [congruence|].
    apply list_elem_of_lookup in Hin as [j Hj].
    rewrite (NoDup_names_eq _ _ _ _ _ _ Hnn Hi Hj) in Ht. congruence.
  - intros Hc'. destruct Hcase as [(_ & -> & Hval)|(g & lo & hi & Ht & _ & Hpt & _)].
    + done.
    + by rewrite Ht, Hpt in Hc'.
  - intros Hc'. destruct Hcase as [(Hc'' & _)|(g & lo & hi & Ht & Hg & _ & Hbe & _ & Hval)].
    + congruence.
    + exists g. split; [done|]. destruct (Hsnap Ht) as (l & _ & _ & He).
      rewrite He in Hbe. injection Hbe as <- <-. rewrite Hval.
      unfold r_at. by destruct Hc as (_ & -> & _).
Qed.

(** After [_save] from a state where [backup] is empty, [_attack_step]
    finds the bounds of every target. *)
Lemma save_attack_total a w :
  wf_world w → backup a = ∅ →
  is_Some (_attack_step (_save a w).1 (_save a w).2).
Proof.
  intros [Hv Hnn] Hb.
  destruct (save_unfold a w) as (a1 & h1 & Hf & ->). simpl.
  destruct (save_loop_mono _ _ _ _ _ Hf) as (Hc & [ext ->] & _).
  unfold _attack_step. simpl.
  destruct (attack_loop_total (params w) a1 (heap w ++ ext)) as [[h2 ps2] ->]; [| |done].
  - by apply valid_locs_app.
  - intros name p Hin Ht. apply list_elem_of_lookup in Hin as [i Hi].
    rewrite (is_target_config a a1) in Ht by done.
    destruct (save_loop_snapshot _ _ _ _ _ _ _ _ Hf Hv Hnn Hi Ht) as (l & _ & _ & _ & ->);
      [by rewrite Hb, lookup_empty | done].
Qed.

Lemma restore_lookup a w i :
  params (_restore a w).2 !! i = restore_param a <$> params w !! i.
Proof. unfold _restore. simpl. apply list_lookup_fmap. Qed.

(** *** The cycle of [attack_backward] *)

(** C1.  A full [attack_backward] cycle with a non-zero step size runs to
    its end and leaves every target (a parameter whose name contains the
    filter, with [requires_grad] set and a gradient at save time) with
    exactly the value it had before the cycle: [_restore] rebinds it to
    the snapshot that [_save] cloned. *)
Theorem attack_backward_restores a w batch i name p :
  wf_world w → backup a = ∅ →
  PrimFloat.eqb (adv_lr a) 0 = false →
  params w !! i = Some (name, p) →
  is_target a name p = true →
  ∃ a' w' p',
    attack_backward model_call zero_grad backward a w batch = Some (a', w')
    ∧ params w' !! i = Some (name, p')
    ∧ value (heap w') p' = value (heap w) p.
Proof.
  intros Hwf Hb Hlr Hi Ht. rewrite attack_backward_unfold by done.
  destruct (save_attack_total a w Hwf Hb) as [w2 Ha]. rewrite Ha. simpl.
  destruct (_save a w) as [a1 w1] eqn:Hs. simpl in *.
  destruct (save_attack_snapshot a w i name p Hwf Hi) with (a1 := a1) (w1 := w1) (w2 := w2)
    as (l & p2 & Hl & Hd & _ & Hi2); [by rewrite Hb, lookup_empty | done..|].
  destruct (grads_only_after_backward w2 batch) as [Hh Hps].
  destruct (Hps _ _ _ Hi2) as [g Hi5].
  exists (_restore a1 (after_backward w2 batch)).1,
         (_restore a1 (after_backward w2 batch)).2.
  eexists. split; [done|]. rewrite restore_lookup, Hi5. simpl.
  unfold restore_param. simpl. rewrite Hl. split; [done|].
  unfold value. simpl. by rewrite ?Hh.
Qed.

(** The locations [_save] adds to [backup] are allocated. *)
Lemma save_loop_valid ps a h a' h' name l :
  foldl save_param (a, h) ps = (a', h') →
  backup a' !! name = Some l →
  backup a !! name = Some l ∨ l < length h'.
Proof.
  revert a h. induction ps as [|[n0 p0] ps IH]; intros a h; cbn [foldl].
  - intros [= <- <-]. by left.
  - destruct (save_param_cases a h n0 p0) as [[-> _] | (-> & _ & _)]; intros Hf Hl;
      [by eapply IH|].
    destruct (IH _ _ Hf Hl) as [Hs|?]; [|by right]. simpl in Hs.
    destruct (decide (n0 = name)) as [->|Hne].
    + rewrite lookup_insert_eq in Hs. injection Hs as <-. right.
      apply save_loop_mono in Hf as (_ & [ext ->] & _).
      rewrite !length_app. simpl. lia.
    + left. by rewrite lookup_insert_ne in Hs.
Qed.

Lemma attack_loop_valid ps a h h' ps' :
  attack_loop a h ps = Some (h', ps') → valid_locs h ps → valid_locs h' ps'.
Proof.
  revert h h' ps'. induction ps as [|[n0 p0] ps IH]; intros h h' ps'; cbn [attack_loop].
  - intros [= <- <-] _. constructor.
  - intros Ha Hv. apply Forall_cons in Hv as [Hv0 Hv]. simpl in Hv0.
    destruct (attack_param a h n0 p0) as [[h1 p1]|] eqn:E1; [|done]. simpl in Ha.
    destruct (attack_loop a h1 ps) as [[h2 rest]|] eqn:E2; [|done]. simpl in Ha.
    injection Ha as <- <-.
    destruct (attack_param_frame _ _ _ _ _ _ E1 Hv0) as (_ & _ & Hlen & _).
    assert (valid_locs h1 ps) as Hv1.
    { eapply Forall_impl; [done|]. intros np ?. simpl in *. lia. }
    destruct (attack_loop_frame _ _ _ _ _ E2 Hv1) as (_ & Hlen2 & _).
    apply Forall_cons. split; [|by eapply IH]. simpl.
    destruct (attack_param_cases _ _ _ _ _ _ E1 Hv0)
      as [(_ & -> & ->) | (g & lo & hi & _ & _ & _ & _ & -> & ->)]; [lia|].
    simpl. rewrite length_app, length_insert in Hlen2. simpl in Hlen2. lia.
Qed.

(** A cycle leaves the controller and the world ready for the next one:
    both mappings are empty, and the world is well formed again. *)
Lemma attack_backward_ready a w batch a' w' :
  wf_world w → backup a = ∅ →
  PrimFloat.eqb (adv_lr a) 0 = false →
  attack_backward model_call zero_grad backward a w batch = Some (a', w') →
  backup a' = ∅ ∧ backup_eps a' = ∅ ∧ (params w').*1 = (params w).*1
  ∧ valid_locs (heap w') (params w').
Proof.
  intros [Hv Hnn] Hb Hlr. rewrite attack_backward_unfold by done.
  destruct (save_unfold a w) as (a1 & h1 & Hf & ->). cbn [fst snd].
  destruct (_attack_step a1 _) as [w2|] eqn:Ha; [|done].
  cbn [mbind option_bind]. intros Hab.
  assert (a' = (_restore a1 (after_backward w2 batch)).1
          ∧ w' = (_restore a1 (after_backward w2 batch)).2) as [-> ->]
    by (by injection Hab as <- <-).
  clear Hab. do 2 (split; [done|]).
  unfold _attack_step in Ha. cbn [heap params trace] in Ha.
  destruct (attack_loop a1 h1 (params w)) as [[h2 ps2]|] eqn:E; [|done].
  cbn [mbind option_bind] in Ha. injection Ha as <-.
  destruct (save_loop_mono _ _ _ _ _ Hf) as (_ & [ext ->] & _).
  assert (valid_locs (heap w ++ ext) (params w)) as Hv1 by by apply valid_locs_app.
  destruct (attack_loop_frame _ _ _ _ _ E Hv1) as (Hnames & Hlen & _).
  pose proof (attack_loop_valid _ _ _ _ _ E Hv1) as Hv2.
  destruct (grads_only_after_backward (mkWorld h2 ps2 (trace w)) batch) as [Hh Hps].
  cbn [heap params] in Hh, Hps.
  assert (∀ i n p, params (_restore a1 (after_backward (mkWorld h2 ps2 (trace w)) batch)).2
                     !! i = Some (n, p) →
            ∃ p2, ps2 !! i = Some (n, p2)
                  ∧ (data p = data p2 ∨ backup a1 !! n = Some (data p))) as Hback.
  { intros i n p. rewrite restore_lookup.
    destruct (params (after_backward _ batch) !! i) as [[n5 p5]|] eqn:Hi5; [|done].
    destruct (ps2 !! i) as [[n2 p2]|] eqn:Hi2.
    - destruct (Hps _ _ _ Hi2) as [g Hi5']. rewrite Hi5 in Hi5'. injection Hi5' as -> ->.
      unfold restore_param. simpl.
      destruct (backup a1 !! n2) as [l|] eqn:Hl; intros [= <- <-]; simpl; eauto.
    - apply lookup_ge_None in Hi2. apply lookup_lt_Some in Hi5.
      assert (length (params (after_backward (mkWorld h2 ps2 (trace w)) batch))
              = length ps2) as Hlen5; [|lia].
      unfold AWP.after_backward, log, set_grads. simpl. by rewrite !length_imap. }
  split.
  - rewrite <- Hnames. apply list_eq. intros i. rewrite !list_lookup_fmap.
    destruct (params (_restore a1 _).2 !! i) as [[n p]|] eqn:Hi.
    + destruct (Hback _ _ _ Hi) as (p2 & -> & _). done.
    + rewrite restore_lookup in Hi.
      destruct (ps2 !! i) as [[n2 p2]|] eqn:Hi2; [|done].
      destruct (Hps _ _ _ Hi2) as [g Hi5]. by rewrite Hi5 in Hi.
  - apply Forall_forall. intros [n p] [i Hi]%list_elem_of_lookup.
    destruct (Hback _ _ _ Hi) as (p2 & Hi2 & [Hd | Hl]); simpl.
    + unfold _restore. simpl. rewrite Hd.
      eapply Forall_lookup_1 in Hv2; [|done]. done.
    + unfold _restore. simpl.
      destruct (save_loop_valid _ _ _ _ _ _ _ Hf Hl) as [Hold|?]; [|lia].
      by rewrite Hb, lookup_empty in Hold.
Qed.

(** C4.  With a step size equal to zero [attack_backward] returns at once:
    the controller (its two mappings included) and the world (every
    parameter, every storage, and the trace of forward, [zero_grad] and
    backward calls) are what they were. *)
Theorem attack_backward_zero_lr a w batch :
  PrimFloat.eqb (adv_lr a) 0 = true →
  attack_backward model_call zero_grad backward a w batch = Some (a, w).
Proof. intros Hlr. unfold attack_backward. by rewrite Hlr. Qed.

(** C5.  A second [_save] with no [_restore] in between keeps every entry
    the first call made: whatever world [w'] the second call sees, a name
    already in [backup] keeps its snapshot and its bounds, and storages are
    only added; on the world the first call left, the second call changes
    nothing at all. *)
Theorem save_twice_keeps a w w' name l :
  backup (_save a w).1 !! name = Some l →
  backup (_save (_save a w).1 w').1 !! name = Some l
  ∧ backup_eps (_save (_save a w).1 w').1 !! name = backup_eps (_save a w).1 !! name
  ∧ (∃ ext, heap (_save (_save a w).1 w').2 = heap w' ++ ext)
  ∧ _save (_save a w).1 (_save a w).2 = _save a w.
Proof.
  intros Hl.
  destruct (save_unfold a w) as (a1 & h1 & Hf & Hs). rewrite Hs in *. simpl in *.
  destruct (save_unfold a1 w') as (a2 & h2 & Hf2 & Hs2). rewrite Hs2. simpl.
  destruct (save_loop_mono _ _ _ _ _ Hf2) as (_ & Hext & Hk).
  destruct (Hk _ _ Hl) as [Hl2 He2]. do 3 (split; [done|]).
  unfold _save at 1. simpl. rewrite save_loop_skip; [done|].
  intros n q Hin Ht. eapply save_loop_covers; [done..|].
  destruct (save_loop_mono _ _ _ _ _ Hf) as (Hc & _ & _).
  by rewrite <- (is_target_config a a1).
Qed.

(** C7.  A target whose gradient norm is zero or NaN keeps its storage and
    its value through [_attack_step], and [_save] has entered it into
    [backup] all the same. *)
Theorem zero_norm_unchanged_but_saved a w i name p g :
  wf_world w → unshared w → backup a = ∅ →
  params w !! i = Some (name, p) →
  is_target a name p = true →
  grad p = Some g →
  ne (norm g) (of_py 0) = false ∨ isnan (norm g) = true →
  ∃ w2, _attack_step (_save a w).1 (_save a w).2 = Some w2
    ∧ params w2 !! i = Some (name, p)
    ∧ value (heap w2) p = value (heap w) p
    ∧ is_Some (backup (_save a w).1 !! name).
Proof.
  intros Hwf Hun Hb Hi Ht Hg Hn.
  destruct (save_attack_total a w Hwf Hb) as [w2 Ha]. exists w2. split; [done|].
  destruct (_save a w) as [a1 w1] eqn:Hs. simpl in *.
  destruct (save_attack_param a w i name p Hwf Hun Hi) with (a1 := a1) (w1 := w1) (w2 := w2)
    as (_ & _ & _ & p2 & Hi2 & _ & _ & Hsnap & _ & Hskip & _);
    [by rewrite Hb, lookup_empty | done..|].
  destruct Hskip as [-> Hval].
  { rewrite Ht. unfold perturbs. rewrite Hg. simpl.
    destruct Hn as [-> | ->]; [done | by rewrite andb_false_r]. }
  destruct (Hsnap Ht) as (l & Hl & _). rewrite Hl. eauto.
Qed.

(** C10.  A parameter that is not a target at save time (its name lacks
    the filter, or [requires_grad] is off, or it has no gradient) is never
    entered into [backup], and [_save], [_attack_step] and [_restore] each
    leave it bound to the same storage holding the same value. *)
Theorem non_target_untouched a w i name p batch :
  wf_world w → unshared w → backup a = ∅ →
  params w !! i = Some (name, p) →
  is_target a name p = false →
  ∃ w2,
    _attack_step (_save a w).1 (_save a w).2 = Some w2
    ∧ backup (_save a w).1 !! name = None
    ∧ (params (_save a w).2 !! i = Some (name, p)
       ∧ value (heap (_save a w).2) p = value (heap w) p)
    ∧ (params w2 !! i = Some (name, p)
       ∧ value (heap w2) p = value (heap w) p)
    ∧ (∃ p', params (_restore (_save a w).1 (after_backward w2 batch)).2 !! i
               = Some (name, p')
             ∧ data p' = data p
             ∧ value (heap (_restore (_save a w).1 (after_backward w2 batch)).2) p'
               = value (heap w) p).
Proof.
  intros Hwf Hun Hb Hi Ht.
  destruct (save_attack_total a w Hwf Hb) as [w2 Ha]. exists w2. split; [done|].
  destruct (_save a w) as [a1 w1] eqn:Hs. cbn [fst snd] in *.
  destruct (save_attack_param a w i name p Hwf Hun Hi) with (a1 := a1) (w1 := w1) (w2 := w2)
    as (_ & Hps & Hv1 & p2 & Hi2 & _ & _ & _ & Hnone & Hskip & _);
    [by rewrite Hb, lookup_empty | done..|].
  destruct Hskip as [-> Hval]; [by rewrite Ht|].
  split; [by apply Hnone|]. split; [by rewrite Hps|]. split; [done|].
  destruct (grads_only_after_backward w2 batch) as [Hh Hps5].
  destruct (Hps5 _ _ _ Hi2) as [g Hi5].
  eexists. rewrite restore_lookup, Hi5. simpl. unfold restore_param. simpl.
  rewrite Hnone by done. split; [done|]. split; [done|].
  unfold value in *. simpl. by rewrite ?Hh.
Qed.
(** *** The update of [_attack_step] *)

Lemma r_at_spec_update a g n1 n2 :
  r_at a g n1 n2 = spec_update (of_py (adv_lr a)) g n1 n2.
Proof.
  unfold r_at, spec_update, tmuls, tdivs, smul.
  rewrite <- !list_fmap_compose. by apply list_fmap_ext.
Qed.

(** C3.  For a target whose gradient norm is neither zero nor NaN,
    [_attack_step] produces the parameter's value plus the update
    [adv_lr · grad / (‖grad‖ + 1e-6) · (‖param‖ + 1e-6)], both norms taken
    on the tensors as they are before the step, clamped element-wise into
    the pair stored in [backup_eps] under the parameter's name. *)
Theorem attack_step_update a w i name p g lower upper :
  valid_locs (heap w) (params w) → unshared w → covered a w →
  params w !! i = Some (name, p) →
  is_target a name p = true →
  grad p = Some g →
  ne (norm g) (of_py 0) = true → isnan (norm g) = false →
  backup_eps a !! name = Some (lower, upper) →
  ∃ w' p',
    _attack_step a w = Some w'
    ∧ params w' !! i = Some (name, p')
    ∧ value (heap w') p' =
        tmin (tmax (tadd (value (heap w) p)
                         (spec_update (of_py (adv_lr a)) g (norm g)
                                      (norm (value (heap w) p))))
                   lower)
             upper.
Proof.
  intros Hv Hnl Hcov Hi Ht Hg Hne Hnan Hb.
  destruct (attack_loop_total (params w) a (heap w) Hv Hcov) as [[h' ps'] E].
  destruct (attack_loop_lookup _ _ _ _ _ _ _ _ E Hv Hnl Hi)
    as (p' & Hi' & _ & _ & Hcase).
  exists (mkWorld h' ps' (trace w)), p'. unfold _attack_step. rewrite E. simpl.
  do 2 (split; [done|]).
  destruct Hcase as [(Hc & _)|(g' & lo & hi & _ & Hg' & _ & Hb' & _ & Hval)].
  - rewrite Ht in Hc. unfold perturbs in Hc. by rewrite Hg, Hne, Hnan in Hc.
  - rewrite Hg in Hg'. injection Hg' as <-. rewrite Hb in Hb'. injection Hb' as <- <-.
    by rewrite Hval, r_at_spec_update.
Qed.

(** *** The two mappings over the life of a controller *)

(** C6.  In every state a controller reaches, [backup] and [backup_eps]
    hold the same names; outside the window between [_save] and
    [_restore] (after [__init__], after [_restore]) both are empty; and a
    [_save] that finds a target leaves both non-empty. *)
Theorem mappings_lifecycle ph a :
  reach Batch Loss ph a →
  dom (backup a) = dom (backup_eps a)
  ∧ (ph = Idle → backup a = ∅ ∧ backup_eps a = ∅)
  ∧ (∀ w name p, (name, p) ∈ params w → is_target a name p = true →
       backup (_save a w).1 ≠ ∅ ∧ backup_eps (_save a w).1 ≠ ∅).
Proof.
  intros Hr.
  assert (dom (backup a) = dom (backup_eps a)
          ∧ (ph = Idle → backup a = ∅ ∧ backup_eps a = ∅)) as [Hd Hi].
  { induction Hr as [| ph a w Hr [IHd _] | | ]; simpl; [done | | done | done].
    split; [|done]. destruct (save_unfold a w) as (a1 & h1 & Hf & ->). simpl.
    by eapply save_loop_dom. }
  do 2 (split; [done|]). intros w name p Hin Ht.
  destruct (save_unfold a w) as (a1 & h1 & Hf & ->). simpl.
  destruct (save_loop_covers _ _ _ _ _ _ _ Hf Hin Ht) as [l Hl].
  assert (name ∈ dom (backup_eps a1)) as [be Hbe]%elem_of_dom.
  { rewrite <- (save_loop_dom _ _ _ _ _ Hf Hd). apply elem_of_dom. eauto. }
  split; intros Hempty; rewrite Hempty, lookup_empty in *; done.
Qed.

(** *** The clamp *)

Context `{!DtypeOrder F}.

Lemma clamp_scalar lo hi s :
  leq lo hi = true → isnan s = false →
  leq lo (minimum (maximum s lo) hi) = true
  ∧ leq (minimum (maximum s lo) hi) hi = true.
Proof.
  intros Hle Hs. destruct (leq_number _ _ Hle) as [Hlo Hhi].
  assert (isnan (maximum s lo) = false) as Hm
    by (by destruct (maximum_pick s lo) as [-> | ->]).
  split; [|by apply minimum_le_r].
  destruct (minimum_pick (maximum s lo) hi) as [-> | ->]; [|done].
  by apply maximum_ge_r.
Qed.

Lemma clamp_lookup lower upper (t : Tensor F) j v :
  clamp lower upper t !! j = Some v →
  ∃ lo hi s, lower !! j = Some lo ∧ upper !! j = Some hi ∧ t !! j = Some s
             ∧ v = minimum (maximum s lo) hi.
Proof.
  unfold clamp, tmin, tmax. intros (m & hi & -> & Hm & Hhi)%lookup_zip_with_Some.
  apply lookup_zip_with_Some in Hm as (s & lo & -> & Hs & Hlo). eauto 10.
Qed.

(** C2, as amended.  After [_save] and [_attack_step], for a perturbed
    target with snapshot [v], stored bounds [(lower, upper)] and unclamped
    sum [v + r_at]: every element of the parameter's value is
    [min(max(sum, lower), upper)] of the sum and the bounds at its index,
    and where the bounds satisfy [lower ≤ upper] and the sum is not NaN,
    [lower ≤ value ≤ upper]. *)
Theorem perturbed_within_bounds a w i name p :
  wf_world w → unshared w → backup a = ∅ →
  params w !! i = Some (name, p) →
  is_target a name p = true → perturbs p = true →
  ∃ w2 p2 g,
    _attack_step (_save a w).1 (_save a w).2 = Some w2
    ∧ params w2 !! i = Some (name, p2)
    ∧ grad p = Some g
    ∧ backup_eps (_save a w).1 !! name = Some (bounds_of a (value (heap w) p))
    ∧ ∀ j x, value (heap w2) p2 !! j = Some x →
        ∃ lo hi s,
          (bounds_of a (value (heap w) p)).1 !! j = Some lo
          ∧ (bounds_of a (value (heap w) p)).2 !! j = Some hi
          ∧ tadd (value (heap w) p)
                 (r_at a g (norm g) (norm (value (heap w) p))) !! j = Some s
          ∧ x = minimum (maximum s lo) hi
          ∧ (leq lo hi = true → isnan s = false →
             leq lo x = true ∧ leq x hi = true).
Proof.
  intros Hwf Hun Hb Hi Ht Hp.
  destruct (save_attack_total a w Hwf Hb) as [w2 Ha]. exists w2.
  destruct (_save a w) as [a1 w1] eqn:Hs. cbn [fst snd] in *.
  destruct (save_attack_param a w i name p Hwf Hun Hi) with (a1 := a1) (w1 := w1) (w2 := w2)
    as (_ & _ & _ & p2 & Hi2 & _ & _ & Hsnap & _ & _ & Hhit);
    [by rewrite Hb, lookup_empty | done..|].
  destruct (Hsnap Ht) as (l & _ & _ & Hbe).
  destruct Hhit as (g & Hg & Hval); [by rewrite Ht, Hp|].
  exists p2, g. do 4 (split; [done|]). intros j x Hx. rewrite Hval in Hx.
  apply clamp_lookup in Hx as (lo & hi & s & Hlo & Hhi & Hsum & ->).
  exists lo, hi, s. do 4 (split; [done|]). apply clamp_scalar.
Qed.
End awp_properties.

(** ** The order of binary64 *)

Section float64_order.
Import Torch Float64.

Lemma SFcompare_refl x : x ≠ S754_nan → SFcompare x x = Some Eq.
Proof.
  destruct x as [s|s| |s m e]; simpl; try done; intros _; destruct s; try done;
    by rewrite Z.compare_refl, Pos.compare_cont_refl.
Qed.

Lemma SFcompare_number x y :
  x ≠ S754_nan → y ≠ S754_nan → is_Some (SFcompare x y).
Proof. destruct x, y; simpl; try done; eauto. Qed.

Lemma SFcompare_antisym x y :
  SFcompare y x = CompOpp <$> SFcompare x y.
Proof.
  destruct x as [s|s| |s m e], y as [s'|s'| |s' m' e']; simpl; try done;
    try (by destruct s); try (by destruct s'); try (by destruct s, s').
  f_equal. destruct s, s'; try done;
    rewrite (Z.compare_antisym e e'); destruct (e ?= e')%Z eqn:He; simpl; try done;
    rewrite !Pos.compare_cont_spec; simpl; rewrite (Pos.compare_antisym m m');
    by destruct (m ?= m')%positive.
Qed.

Lemma is_nan_false x : PrimFloat.is_nan x = false ↔ Prim2SF x ≠ S754_nan.
Proof.
  unfold PrimFloat.is_nan. rewrite negb_false_iff, FloatAxioms.eqb_spec. unfold SFeqb. split.
  - intros Hc Hn. by rewrite Hn in Hc.
  - intros Hn. by rewrite SFcompare_refl.
Qed.

Lemma leb_refl x : PrimFloat.is_nan x = false → PrimFloat.leb x x = true.
Proof.
  rewrite is_nan_false, FloatAxioms.leb_spec. intros Hn. unfold SFleb. by rewrite SFcompare_refl.
Qed.

Lemma leb_number x y :
  PrimFloat.leb x y = true → PrimFloat.is_nan x = false ∧ PrimFloat.is_nan y = false.
Proof.
  rewrite FloatAxioms.leb_spec, !is_nan_false. unfold SFleb. intros Hc.
  split; intros Hn; rewrite Hn in Hc; simpl in Hc; [done|].
  by destruct (Prim2SF x).
Qed.

Lemma ltb_false_leb x y :
  PrimFloat.is_nan x = false → PrimFloat.is_nan y = false →
  PrimFloat.ltb x y = false → PrimFloat.leb y x = true.
Proof.
  rewrite !is_nan_false, FloatAxioms.ltb_spec, FloatAxioms.leb_spec. unfold SFltb, SFleb. intros Hx Hy.
  rewrite (SFcompare_antisym (Prim2SF x) (Prim2SF y)).
  destruct (SFcompare_number _ _ Hx Hy) as [c ->]. by destruct c.
Qed.

#[export] Instance float64_order : DtypeOrder float.
Proof.
  refine {| leq := PrimFloat.leb |}; simpl.
  - apply leb_number.
  - intros a b. unfold fmaximum.
    destruct (PrimFloat.is_nan a), (PrimFloat.is_nan b), (PrimFloat.ltb a b); auto.
  - intros a b. unfold fminimum.
    destruct (PrimFloat.is_nan a), (PrimFloat.is_nan b), (PrimFloat.ltb b a); auto.
  - intros a b Ha Hb. unfold fmaximum. rewrite Ha, Hb.
    destruct (PrimFloat.ltb a b) eqn:Hlt; [by apply leb_refl | by apply ltb_false_leb].
  - intros a b Ha Hb. unfold fminimum. rewrite Ha, Hb.
    destruct (PrimFloat.ltb b a) eqn:Hlt; [by apply leb_refl | by apply ltb_false_leb].
Defined.
End float64_order.

(** ** The model wrapper *)

Section matcha_properties.
Import Torch Matcha.

Lemma freeze_count_ok_sound fuel n0 n :
  freeze_count_ok fuel n0 = true →
  (n0 ≤ n < n0 + Z.of_nat fuel)%Z →
  to_freeze_layer n = Some (4 * n / 10)%Z.
Proof.
  revert n0. induction fuel as [|fuel IH]; intros n0; simpl; [lia|].
  intros [Hhd Htl]%andb_true_iff Hn.
  destruct (decide (n = n0)) as [->|Hne].
  - destruct (to_freeze_layer n0) as [k|]; [|done]. by apply Z.eqb_eq in Hhd as ->.
  - apply (IH (n0 + 1)%Z); [done | lia].
Qed.

(** The rounding of the binary64 product does not show below 100000
    layers. *)
Lemma to_freeze_layer_floor n :
  (0 ≤ n ≤ 100000)%Z → to_freeze_layer n = Some (4 * n / 10)%Z.
Proof.
  intros Hn. apply (freeze_count_ok_sound (Z.to_nat 100001) 0); [by vm_compute | lia].
Qed.

Lemma slice_to_take {A} (k : Z) (l : list A) :
  (0 ≤ k)%Z → Py.slice_to k l = take (Z.to_nat k) l.
Proof. intros Hk. unfold Py.slice_to. by rewrite (proj2 (Z.leb_le 0 k)). Qed.

Context {F : Type} `{Dtype F}.
Implicit Types (b : Backbone F) (ps : list (Param F)) (ids : list nat).

Lemma no_grad_idemp (p : Param F) : no_grad (no_grad p) = no_grad p.
Proof. done. Qed.

(** Freezing the parameters of a module turns the flag of those
    parameters off and touches no other. *)
Lemma freeze_module_lookup ids ps j :
  freeze_module ids ps !! j
  = (if bool_decide (j ∈ ids) then no_grad else id) <$> ps !! j.
Proof.
  revert ps. induction ids as [|i ids IH]; intros ps; simpl.
  - by destruct (ps !! j).
  - rewrite IH. destruct (decide (i = j)) as [->|Hne].
    + rewrite list_lookup_alter_eq, (bool_decide_eq_true_2 (j ∈ j :: ids)) by by left.
      destruct (ps !! j) as [p|]; [|done]. simpl. by case_bool_decide.
    + rewrite list_lookup_alter_ne by done.
      rewrite (bool_decide_ext (j ∈ i :: ids) (j ∈ ids)); [done|].
      rewrite elem_of_cons. split; [intros [?|?] | intros ?]; [congruence | done | by right].
Qed.

Lemma freeze_layers_concat (layers : list (list nat)) ps :
  foldl (λ ps layer, freeze_module layer ps) ps layers
  = freeze_module (concat layers) ps.
Proof.
  revert ps. induction layers as [|layer layers IH]; intros ps; simpl; [done|].
  rewrite IH. unfold freeze_module. by rewrite foldl_app.
Qed.

(** With [k] layers to freeze, [freeze] maps [no_grad] over the parameters
    of [frozen_ids] and leaves the other fields of the backbone alone. *)
Lemma freeze_lookup b k :
  to_freeze_layer (num_hidden_layers b) = Some k →
  ∃ b', freeze b = Some b'
        ∧ encoder_layer b' = encoder_layer b
        ∧ embeddings b' = embeddings b
        ∧ decoder b' = decoder b
        ∧ ∀ j, parameters b' !! j
               = (if bool_decide (j ∈ frozen_ids b k) then no_grad else id)
                   <$> parameters b !! j.
Proof.
  intros Hk. unfold freeze. rewrite Hk. simpl. eexists. split; [done|]. simpl.
  do 3 (split; [done|]). intros j.
  rewrite freeze_layers_concat, !freeze_module_lookup. unfold frozen_ids.
  destruct (parameters b !! j) as [p|]; [|done]. simpl. f_equal.
  destruct (decide (j ∈ embeddings b)) as [He|He],
           (decide (j ∈ concat (Py.slice_to k (encoder_layer b)))) as [Hl|Hl];
    rewrite ?(bool_decide_eq_true_2 _ He), ?(bool_decide_eq_false_2 _ He),
            ?(bool_decide_eq_true_2 _ Hl), ?(bool_decide_eq_false_2 _ Hl);
    [ rewrite bool_decide_eq_true_2 by (apply elem_of_app; auto)
    | rewrite bool_decide_eq_true_2 by (apply elem_of_app; auto)
    | rewrite bool_decide_eq_true_2 by (apply elem_of_app; auto)
    | rewrite bool_decide_eq_false_2 by (rewrite elem_of_app; tauto) ];
    done.
Qed.

(** C8.  With [n = num_hidden_layers], [__init__] computes
    [to_freeze_layer = ⌊0.4 n⌋] (4 for [n = 10]); afterwards
    [requires_grad] is [False] on every parameter of the first
    [to_freeze_layer] encoder layers and of the embeddings, and every other
    parameter object, those of the later layers and of the decoder among
    them, has the flag, the gradient and the storage it had. *)
Theorem freeze_policy b :
  (0 ≤ num_hidden_layers b ≤ 100000)%Z →
  ∃ b',
    freeze b = Some b'
    ∧ to_freeze_layer (num_hidden_layers b) = Some (4 * num_hidden_layers b / 10)%Z
    ∧ to_freeze_layer 10 = Some 4%Z
    ∧ frozen_ids b (4 * num_hidden_layers b / 10)
      = concat (take (Z.to_nat (4 * num_hidden_layers b / 10)) (encoder_layer b))
        ++ embeddings b
    ∧ encoder_layer b' = encoder_layer b
    ∧ embeddings b' = embeddings b
    ∧ decoder b' = decoder b
    ∧ (∀ j p', j ∈ frozen_ids b (4 * num_hidden_layers b / 10) →
         parameters b' !! j = Some p' → requires_grad p' = false)
    ∧ (∀ j, j ∉ frozen_ids b (4 * num_hidden_layers b / 10) →
         parameters b' !! j = parameters b !! j)
    ∧ (∀ j p, parameters b !! j = Some p →
         ∃ p', parameters b' !! j = Some p'
               ∧ grad p' = grad p ∧ data p' = data p
               ∧ requires_grad p'
                 = if bool_decide (j ∈ frozen_ids b (4 * num_hidden_layers b / 10))
                   then false else requires_grad p).
Proof.
  intros Hn. pose proof (to_freeze_layer_floor _ Hn) as Hk.
  destruct (freeze_lookup b _ Hk) as (b' & Hf & He & Hm & Hd & Hps).
  exists b'. do 2 (split; [done|]). split; [by apply to_freeze_layer_floor|].
  assert (0 ≤ 4 * num_hidden_layers b / 10)%Z as Hpos by (apply Z.div_pos; lia).
  split; [by unfold frozen_ids; rewrite slice_to_take|].
  do 3 (split; [done|]). split; [|split].
  - intros j p' Hj. rewrite Hps, bool_decide_eq_true_2 by done.
    destruct (parameters b !! j) as [p|]; [|done]. simpl. by intros [= <-].
  - intros j Hj. rewrite Hps, bool_decide_eq_false_2 by done.
    by destruct (parameters b !! j).
  - intros j p Hp. rewrite Hps, Hp. simpl. eexists. split; [done|].
    by case_bool_decide.
Qed.
End matcha_properties.

Section forward_properties.
Import Matcha.
Context {Patches Mask Labels Loss Logits : Type}.
Variable backbone : Patches → Mask → Labels → @Outputs Loss Logits.

(** C9.  [forward] returns the backbone's own loss, and a mapping in
    which [loss_main] and [loss_cls] both hold that same loss. *)
Theorem forward_losses (flattened_patches : Patches) (attention_mask : Mask)
    (labels : Labels) :
  (forward backbone flattened_patches attention_mask labels).1
    = loss (backbone flattened_patches attention_mask labels)
  ∧ (forward backbone flattened_patches attention_mask labels).2 !! "loss_main"
    = Some (forward backbone flattened_patches attention_mask labels).1
  ∧ (forward backbone flattened_patches attention_mask labels).2 !! "loss_cls"
    = Some (forward backbone flattened_patches attention_mask labels).1.
Proof.
  unfold forward. simpl. split; [done|]. split.
  - by rewrite lookup_insert_ne, lookup_insert_eq.
  - by rewrite lookup_insert_eq.
Qed.
End forward_properties.

Section examples.
Import Torch Float64 AWP Example.

Example str_in_run :
  Py.str_in "weight" "encoder.layer.0.weight" = true
  ∧ Py.str_in "weight" "encoder.layer.0.bias" = false
  ∧ Py.str_in "" "bias" = true.
Proof. done. Qed.

Example to_freeze_layer_run :
  Matcha.to_freeze_layer <$> [0; 4; 5; 10; 12; 18; 24]%Z
  = Some <$> [0; 1; 2; 4; 4; 7; 9]%Z.
Proof. by vm_compute. Qed.

(** A cycle on the example: the three calls are traced in order, both
    weights are back on their values (in the snapshots' storages), and the
    mappings are empty. *)
Example attack_backward_run :
  (λ r, (map_to_list (backup r.1), trace r.2,
         (λ np, (np.1, data np.2, value (heap r.2) np.2)) <$> params r.2))
    <$> attack_backward model_call zero_grad backward awp world tt
  = Some ([], [Forward tt; ZeroGrad; Backward 0%float],
          [("l.weight", 3, [2%float]); ("l.bias", 1, [1%float; 2%float]);
           ("m.weight", 4, [5%float])]).
Proof. by vm_compute. Qed.

Lemma wf_world_example : wf_world world.
Proof. split; compute_done. Qed.

Lemma unshared_example : unshared world.
Proof. compute_done. Qed.

Lemma covered_after_save {F : Type} `{Dtype F} {Batch Loss : Type}
    (a : AWP.t F) (w : World F Batch Loss) :
  wf_world w → backup a = ∅ → covered (_save a w).1 (_save a w).2.
Proof.
  intros [Hv Hnn] Hb name p Hin Ht.
  destruct (save_unfold a w) as (a1 & h1 & Hf & Hs). rewrite Hs in *. simpl in *.
  destruct (save_loop_mono _ _ _ _ _ Hf) as (Hc & _ & _).
  apply list_elem_of_lookup in Hin as [i Hi].
  rewrite (is_target_config a a1) in Ht by done.
  destruct (save_loop_snapshot _ _ _ _ _ _ _ _ Hf Hv Hnn Hi Ht) as (l & _ & _ & _ & ->);
    [by rewrite Hb, lookup_empty | done].
Qed.

Lemma attack_backward_restores_witness :
  ∃ a' w' p',
    attack_backward model_call zero_grad backward awp world tt = Some (a', w')
    ∧ params w' !! 0 = Some ("l.weight", p')
    ∧ value (heap w') p' = value (heap world) weight_l.
Proof.
  apply (attack_backward_restores model_call zero_grad backward awp world tt
           0 "l.weight" weight_l);
    [apply wf_world_example | reflexivity..].
Defined.

Lemma attack_backward_zero_lr_witness :
  attack_backward model_call zero_grad backward awp_off world tt
  = Some (awp_off, world).
Proof.
  apply (attack_backward_zero_lr model_call zero_grad backward awp_off world tt).
  reflexivity.
Defined.

Lemma save_twice_keeps_witness :
  backup (_save (_save awp world).1 world).1 !! "l.weight" = Some 3
  ∧ backup_eps (_save (_save awp world).1 world).1 !! "l.weight"
    = backup_eps (_save awp world).1 !! "l.weight"
  ∧ (∃ ext, heap (_save (_save awp world).1 world).2 = heap world ++ ext)
  ∧ _save (_save awp world).1 (_save awp world).2 = _save awp world.
Proof.
  apply (save_twice_keeps awp world world "l.weight" 3). by vm_compute.
Defined.

Lemma zero_norm_unchanged_but_saved_witness :
  ∃ w2, _attack_step (_save awp world).1 (_save awp world).2 = Some w2
    ∧ params w2 !! 2 = Some ("m.weight", weight_m)
    ∧ value (heap w2) weight_m = value (heap world) weight_m
    ∧ is_Some (backup (_save awp world).1 !! "m.weight").
Proof.
  apply (zero_norm_unchanged_but_saved awp world 2 "m.weight" weight_m [0%float]);
    [apply wf_world_example | apply unshared_example
    | reflexivity.. | left; reflexivity].
Defined.

Lemma non_target_untouched_witness :
  ∃ w2,
    _attack_step (_save awp world).1 (_save awp world).2 = Some w2
    ∧ backup (_save awp world).1 !! "l.bias" = None
    ∧ (params (_save awp world).2 !! 1 = Some ("l.bias", bias_l)
       ∧ value (heap (_save awp world).2) bias_l = value (heap world) bias_l)
    ∧ (params w2 !! 1 = Some ("l.bias", bias_l)
       ∧ value (heap w2) bias_l = value (heap world) bias_l)
    ∧ (∃ p', params (_restore (_save awp world).1
                       (after_backward model_call zero_grad backward w2 tt)).2 !! 1
               = Some ("l.bias", p')
             ∧ data p' = data bias_l
             ∧ value (heap (_restore (_save awp world).1
                              (after_backward model_call zero_grad backward w2 tt)).2) p'
               = value (heap world) bias_l).
Proof.
  apply (non_target_untouched model_call zero_grad backward awp world 1 "l.bias" bias_l tt);
    [apply wf_world_example | apply unshared_example | reflexivity..].
Defined.

Lemma attack_step_update_witness :
  ∃ w' p',
    _attack_step (_save awp world).1 (_save awp world).2 = Some w'
    ∧ params w' !! 0 = Some ("l.weight", p')
    ∧ value (heap w') p' =
        tmin (tmax (tadd (value (heap (_save awp world).2) weight_l)
                         (spec_update (of_py (adv_lr (_save awp world).1)) [1%float]
                            (norm [1%float])
                            (norm (value (heap (_save awp world).2) weight_l))))
                   (bounds_of awp [2%float]).1)
             (bounds_of awp [2%float]).2.
Proof.
  apply (attack_step_update (_save awp world).1 (_save awp world).2 0 "l.weight"
           weight_l [1%float]);
    [ repeat constructor; simpl; lia
    | compute_done
    | apply covered_after_save; [apply wf_world_example | reflexivity]
    | reflexivity.. | by vm_compute ].
Defined.

Lemma mappings_lifecycle_witness :
  dom (backup (_save awp world).1) = dom (backup_eps (_save awp world).1)
  ∧ (InCycle = Idle →
     backup (_save awp world).1 = ∅ ∧ backup_eps (_save awp world).1 = ∅)
  ∧ (∀ (w : World float unit float) name p,
       (name, p) ∈ params w → is_target (_save awp world).1 name p = true →
       backup (_save (_save awp world).1 w).1 ≠ ∅
       ∧ backup_eps (_save (_save awp world).1 w).1 ≠ ∅).
Proof.
  apply (mappings_lifecycle InCycle (_save awp world).1).
  apply (reach_save Idle). apply reach_init.
Defined.

Lemma perturbed_within_bounds_witness :
  ∃ w2 p2 g,
    _attack_step (_save awp world).1 (_save awp world).2 = Some w2
    ∧ params w2 !! 0 = Some ("l.weight", p2)
    ∧ grad weight_l = Some g
    ∧ backup_eps (_save awp world).1 !! "l.weight"
      = Some (bounds_of awp (value (heap world) weight_l))
    ∧ ∀ j x, value (heap w2) p2 !! j = Some x →
        ∃ lo hi s,
          (bounds_of awp (value (heap world) weight_l)).1 !! j = Some lo
          ∧ (bounds_of awp (value (heap world) weight_l)).2 !! j = Some hi
          ∧ tadd (value (heap world) weight_l)
                 (r_at awp g (norm g) (norm (value (heap world) weight_l))) !! j = Some s
          ∧ x = minimum (maximum s lo) hi
          ∧ (leq lo hi = true → isnan s = false →
             leq lo x = true ∧ leq x hi = true).
Proof.
  apply (perturbed_within_bounds awp world 0 "l.weight" weight_l);
    [apply wf_world_example | apply unshared_example | reflexivity..].
Defined.

(** With the default tolerance the perturbed weight ends on its upper
    bound. *)
Example default_tolerance_run :
  (λ w2, (λ np, value (heap w2) np.2) <$> params w2 !! 0)
    <$> _attack_step (_save awp world).1 (_save awp world).2
  = Some (Some [0x1.00068db8bac71p+1%float])
  ∧ backup_eps (_save awp world).1 !! "l.weight"
    = Some ([0x1.fff2e48e8a71ep+0%float], [0x1.00068db8bac71p+1%float])
  ∧ PrimFloat.leb 0x1.fff2e48e8a71ep+0 0x1.00068db8bac71p+1 = true.
Proof. by vm_compute. Qed.

(** A weight of 2 whose gradient has overflowed to infinity, and a weight
    that is itself infinite. *)
Definition weight_overflow : Param float := mkParam true (Some [infinity]) 0.

Definition world_overflow : World float unit float :=
  mkWorld [[2%float]] [("l.weight", weight_overflow)] [].

Definition world_infinite : World float unit float :=
  mkWorld [[infinity]] [("l.weight", weight_l)] [].

(** C2, as stated, fails with the default tolerance: an infinite gradient
    passes the guard of [_attack_step] (its norm is neither zero nor NaN),
    the update [inf / inf] is NaN, and [torch.max] and [torch.min] hand the
    NaN on.  The stored interval is [1.9998, 2.0002], with lower below
    upper, and the value is NaN, which is neither above the lower bound nor
    below the upper one. *)
Lemma clamp_interval_counterexample :
  ∃ w2 p2,
    _attack_step (_save awp world_overflow).1 (_save awp world_overflow).2 = Some w2
    ∧ is_target awp "l.weight" weight_overflow = true
    ∧ perturbs weight_overflow = true
    ∧ params w2 !! 0 = Some ("l.weight", p2)
    ∧ backup_eps (_save awp world_overflow).1 !! "l.weight"
      = Some ([0x1.fff2e48e8a71ep+0%float], [0x1.00068db8bac71p+1%float])
    ∧ PrimFloat.leb 0x1.fff2e48e8a71ep+0 0x1.00068db8bac71p+1 = true
    ∧ value (heap w2) p2 = [nan]
    ∧ PrimFloat.leb 0x1.fff2e48e8a71ep+0 nan = false
    ∧ PrimFloat.leb nan 0x1.00068db8bac71p+1 = false.
Proof. eexists _, _. by vm_compute. Qed.

(** The condition [lower ≤ upper] is needed as well, with the default
    tolerance too: on an infinite weight [_save] stores
    [inf - 0.0001 * inf = NaN] as the lower bound. *)
Example infinite_weight_run :
  backup_eps (_save awp world_infinite).1 !! "l.weight" = Some ([nan], [infinity])
  ∧ PrimFloat.leb nan infinity = false
  ∧ (λ w2, (λ np, value (heap w2) np.2) <$> params w2 !! 0)
      <$> _attack_step (_save awp world_infinite).1 (_save awp world_infinite).2
    = Some (Some [nan]).
Proof. by vm_compute. Qed.

(** A negative tolerance puts the lower bound above the upper one; the
    clamped value is then the upper bound. *)
Example negative_tolerance_run :
  backup_eps (_save awp_neg world).1 !! "l.weight" = Some ([3%float], [1%float])
  ∧ (λ w2, (λ np, value (heap w2) np.2) <$> params w2 !! 0)
      <$> _attack_step (_save awp_neg world).1 (_save awp_neg world).2
    = Some (Some [1%float]).
Proof. by vm_compute. Qed.

(** The flags of the example backbone after [freeze]: off for the eight
    parameters of layers 0 to 3 and for the embedding, on for the twelve of
    layers 4 to 9 and for the two of the decoder. *)
Example freeze_backbone10_run :
  (λ b', requires_grad <$> Matcha.parameters b') <$> Matcha.freeze backbone10
  = Some (replicate 8 false ++ replicate 12 true ++ [false] ++ [true; true]).
Proof. by vm_compute. Qed.

Lemma freeze_policy_witness :
  ∃ b',
    Matcha.freeze backbone10 = Some b'
    ∧ Matcha.to_freeze_layer 10 = Some (4 * 10 / 10)%Z
    ∧ Matcha.to_freeze_layer 10 = Some 4%Z
    ∧ Matcha.frozen_ids backbone10 (4 * 10 / 10)
      = concat (take (Z.to_nat (4 * 10 / 10)) (Matcha.encoder_layer backbone10))
        ++ Matcha.embeddings backbone10
    ∧ Matcha.encoder_layer b' = Matcha.encoder_layer backbone10
    ∧ Matcha.embeddings b' = Matcha.embeddings backbone10
    ∧ Matcha.decoder b' = Matcha.decoder backbone10
    ∧ (∀ j p', j ∈ Matcha.frozen_ids backbone10 (4 * 10 / 10) →
         Matcha.parameters b' !! j = Some p' → requires_grad p' = false)
    ∧ (∀ j, j ∉ Matcha.frozen_ids backbone10 (4 * 10 / 10) →
         Matcha.parameters b' !! j = Matcha.parameters backbone10 !! j)
    ∧ (∀ j p, Matcha.parameters backbone10 !! j = Some p →
         ∃ p', Matcha.parameters b' !! j = Some p'
               ∧ grad p' = grad p ∧ data p' = data p
               ∧ requires_grad p'
                 = if bool_decide (j ∈ Matcha.frozen_ids backbone10 (4 * 10 / 10))
                   then false else requires_grad p).
Proof. apply (freeze_policy backbone10). simpl. lia. Defined.
End examples.

(** * More of the controller *)

Section awp_methods.
Import Torch AWP.
Context {F : Type} `{Dtype F} {Batch Loss : Type}.

Implicit Types (a : AWP.t F) (w : World F Batch Loss) (h : Store F)
  (p : Param F) (ps : list (string * Param F)) (name : string) (l : loc).

(** X1.  The condition of [_save] and [_attack_step] selects a parameter
    exactly when [requires_grad] is set, a gradient is present, and the name
    reads [pre + adv_param + post] for some strings [pre] and [post]: the
    filter is a substring, neither a prefix nor the whole name. *)
Theorem is_target_spec a name p :
  is_target a name p = true
  ↔ requires_grad p = true ∧ is_Some (grad p)
    ∧ ∃ pre post, name = (pre +:+ adv_param a +:+ post)%string.
Proof.
  unfold is_target. rewrite !andb_true_iff, bool_decide_eq_true, str_in_spec.
  tauto.
Qed.

Lemma save_loop_count ps a h a' h' :
  foldl save_param (a, h) ps = (a', h') →
  ∃ ext, h' = h ++ ext ∧ length ext + size (backup a) = size (backup a').
Proof.
  revert a h. induction ps as [|[n0 p0] ps IH]; intros a h; cbn [foldl].
  - intros [= <- <-]. exists []. by rewrite app_nil_r.
  - destruct (save_param_cases a h n0 p0) as [[-> _] | (-> & _ & Hb)]; [by apply IH|].
    intros Hf. apply IH in Hf as (ext & -> & Hn). simpl in Hn.
    rewrite map_size_insert_None in Hn by done.
    exists ([value h p0] ++ ext). split; [by rewrite app_assoc|].
    rewrite length_app. simpl. lia.
Qed.

(** A name that [_save] finds or enters in [backup] has bounds, if the
    names it found had. *)
Lemma save_loop_bounds ps a h a' h' name :
  foldl save_param (a, h) ps = (a', h') →
  (is_Some (backup a !! name) → is_Some (backup_eps a !! name)) →
  is_Some (backup a' !! name) → is_Some (backup_eps a' !! name).
Proof.
  revert a h. induction ps as [|[n0 p0] ps IH]; intros a h; cbn [foldl].
  - by intros [= <- <-].
  - destruct (save_param_cases a h n0 p0) as [[-> _] | (-> & _ & _)]; [by apply IH|].
    intros Hf Himp. apply (IH _ _ Hf). simpl.
    destruct (decide (n0 = name)) as [->|Hne].
    + intros _. rewrite lookup_insert_eq. eauto.
    + by rewrite !lookup_insert_ne.
Qed.

(** X2.  From an empty [backup], [_save] enters a name exactly when a
    parameter of that name is a target, and gives it its bounds. *)
Theorem save_backs_up_the_targets a w name :
  backup a = ∅ →
  (is_Some (backup (_save a w).1 !! name)
   ↔ ∃ p, (name, p) ∈ params w ∧ is_target a name p = true)
  ∧ (is_Some (backup (_save a w).1 !! name)
     → is_Some (backup_eps (_save a w).1 !! name)).
Proof.
  intros Hb. destruct (save_unfold a w) as (a1 & h1 & Hf & ->). simpl. split.
  - split.
    + intros [l Hl]. destruct (save_loop_new _ _ _ _ _ _ _ Hf Hl) as [Hold|[_ ?]]; [|done].
      by rewrite Hb, lookup_empty in Hold.
    + intros (p & Hin & Ht). by eapply save_loop_covers.
  - apply (save_loop_bounds _ _ _ _ _ _ Hf). rewrite Hb, lookup_empty. by intros [? ?].
Qed.

(** X3.  [_save] leaves the parameters and the trace as they are and
    writes no existing storage: the store grows at its end by exactly one
    storage for each entry added to [backup]. *)
Theorem save_only_allocates a w :
  params (_save a w).2 = params w
  ∧ trace (_save a w).2 = trace w
  ∧ ∃ ext, heap (_save a w).2 = heap w ++ ext
           ∧ length ext + size (backup a) = size (backup (_save a w).1).
Proof.
  destruct (save_unfold a w) as (a1 & h1 & Hf & ->). simpl.
  do 2 (split; [done|]). by eapply save_loop_count.
Qed.
Lemma attack_param_None a h name p :
  attack_param a h name p = None
  ↔ is_target a name p = true ∧ perturbs p = true ∧ backup_eps a !! name = None.
Proof.
  unfold attack_param, perturbs. destruct (is_target a name p); [|by split; [|intros []]].
  destruct (grad p) as [g|]; [|by split; [|intros (_ & ? & _)]].
  destruct (ne (norm g) (of_py 0) && negb (isnan (norm g)));
    [|by split; [|intros (_ & ? & _)]].
  destruct (backup_eps a !! name) as [[lo hi]|]; simpl; [by split; [|intros (_ & _ & ?)]|].
  done.
Qed.

Lemma attack_loop_None ps a h :
  attack_loop a h ps = None
  ↔ ∃ name p, (name, p) ∈ ps ∧ is_target a name p = true ∧ perturbs p = true
              ∧ backup_eps a !! name = None.
Proof.
  revert h. induction ps as [|[n0 p0] ps IH]; intros h; cbn [attack_loop].
  - split; [done|]. intros (? & ? & Hin & _). by apply elem_of_nil in Hin.
  - destruct (attack_param a h n0 p0) as [[h1 p1]|] eqn:E1; simpl.
    + destruct (attack_loop a h1 ps) as [[h2 rest]|] eqn:E2; simpl.
      * split; [done|]. intros (n & q & [[= -> ->]|Hin]%elem_of_cons & Hq).
        -- assert (attack_param a h n0 p0 = None) by by apply attack_param_None.
           congruence.
        -- assert (attack_loop a h1 ps = None) by (apply IH; eauto). congruence.
      * split; [|done]. intros _. apply IH in E2 as (n & q & Hin & Hq).
        exists n, q. split; [by right | done].
    + split; [|done]. intros _. apply attack_param_None in E1.
      exists n0, p0. split; [by left | done].
Qed.

(** X4.  [_attack_step] raises the [KeyError] of [self.backup_eps[name]]
    exactly when some target with a perturbing gradient (norm neither zero
    nor NaN) has no entry in [backup_eps]; a target that is not perturbed
    needs none. *)
Theorem attack_step_KeyError a w :
  _attack_step a w = None
  ↔ ∃ name p, (name, p) ∈ params w ∧ is_target a name p = true
              ∧ perturbs p = true ∧ backup_eps a !! name = None.
Proof.
  rewrite <- (attack_loop_None (params w) a (heap w)). unfold _attack_step.
  by destruct (attack_loop a (heap w) (params w)) as [[h' ps']|].
Qed.

(** The perturbed targets of a list of parameters. *)
Definition perturbed a ps : list (string * Param F) :=
  List.filter (λ np, is_target a np.1 np.2 && perturbs np.2) ps.

Lemma attack_loop_writes ps a h h' ps' :
  attack_loop a h ps = Some (h', ps') → valid_locs h ps →
  length h' = length h + length (perturbed a ps)
  ∧ ∀ l, l < length h → l ∉ locs (perturbed a ps) → h' !! l = h !! l.
Proof.
  revert h h' ps'. induction ps as [|[n0 p0] ps IH]; intros h h' ps'; cbn [attack_loop].
  - intros [= <- <-] _. simpl. split; [lia | done].
  - intros Ha Hv. apply Forall_cons in Hv as [Hv0 Hv]. simpl in Hv0.
    destruct (attack_param a h n0 p0) as [[h1 p1]|] eqn:E1; [|done]. simpl in Ha.
    destruct (attack_loop a h1 ps) as [[h2 rest]|] eqn:E2; [|done]. simpl in Ha.
    injection Ha as <- <-.
    destruct (attack_param_frame _ _ _ _ _ _ E1 Hv0) as (_ & _ & Hlen & _).
    assert (valid_locs h1 ps) as Hv1.
    { eapply Forall_impl; [done|]. intros np ?. simpl in *. lia. }
    destruct (IH _ _ _ E2 Hv1) as [Hcount Hfr]. unfold perturbed. simpl.
    destruct (attack_param_cases _ _ _ _ _ _ E1 Hv0)
      as [(Hc & -> & ->) | (g & lo & hi & Ht & _ & Hp & _ & -> & ->)].
    + rewrite Hc. split; [done|]. intros l Hl Hnin. by apply Hfr.
    + rewrite Ht, Hp. simpl. rewrite length_app, length_insert in Hcount. simpl in Hcount.
      split; [unfold perturbed in Hcount; lia|]. intros l Hl Hnin.
      apply not_elem_of_cons in Hnin as [Hne Hnin]. simpl in Hne.
      rewrite Hfr; [| rewrite length_app, length_insert; lia | done].
      rewrite lookup_app_l by (by rewrite length_insert).
      by rewrite list_lookup_insert_ne.
Qed.

(** X5.  [_attack_step] keeps the trace and every parameter's name, flag
    and gradient; it adds one storage per perturbed target and writes, of
    the existing storages, only those of perturbed targets. *)
Theorem attack_step_frame a w w' :
  valid_locs (heap w) (params w) →
  _attack_step a w = Some w' →
  trace w' = trace w
  ∧ (∀ i, (λ np, (np.1, requires_grad np.2, grad np.2)) <$> params w' !! i
          = (λ np, (np.1, requires_grad np.2, grad np.2)) <$> params w !! i)
  ∧ length (heap w') = length (heap w) + length (perturbed a (params w))
  ∧ ∀ l, l < length (heap w) → l ∉ locs (perturbed a (params w)) →
         heap w' !! l = heap w !! l.
Proof.
  intros Hv Ha. unfold _attack_step in Ha.
  destruct (attack_loop a (heap w) (params w)) as [[h' ps']|] eqn:E; [|done].
  simpl in Ha. injection Ha as <-. simpl. split; [done|].
  destruct (attack_loop_writes _ _ _ _ _ E Hv) as [Hcount Hfr].
  split; [|done]. clear Hcount Hfr. revert E Hv. generalize (heap w).
  generalize (params w). intros ps. revert ps'.
  induction ps as [|[n0 p0] ps IH]; intros ps' h; cbn [attack_loop].
  - by intros [= <- <-].
  - intros Ha Hv. apply Forall_cons in Hv as [Hv0 Hv]. simpl in Hv0.
    destruct (attack_param a h n0 p0) as [[h1 p1]|] eqn:E1; [|done]. simpl in Ha.
    destruct (attack_loop a h1 ps) as [[h2 rest]|] eqn:E2; [|done]. simpl in Ha.
    injection Ha as <- <-.
    destruct (attack_param_frame _ _ _ _ _ _ E1 Hv0) as (Hrg & Hgr & Hlen & _).
    intros [|i]; simpl; [by rewrite Hrg, Hgr|].
    apply (IH _ _ E2). eapply Forall_impl; [done|]. intros np ?. simpl in *. lia.
Qed.

(** X6.  A perturbed target whose gradient has the shape of its value
    keeps that shape through [_save] and [_attack_step]. *)
Theorem perturbed_keeps_shape a w i name p g :
  wf_world w → unshared w → backup a = ∅ →
  params w !! i = Some (name, p) →
  is_target a name p = true → perturbs p = true →
  grad p = Some g → length g = length (value (heap w) p) →
  ∃ w2 p2,
    _attack_step (_save a w).1 (_save a w).2 = Some w2
    ∧ params w2 !! i = Some (name, p2)
    ∧ length (value (heap w2) p2) = length (value (heap w) p).
Proof.
  intros Hwf Hun Hb Hi Ht Hp Hg Hlen.
  destruct (save_attack_total a w Hwf Hb) as [w2 Ha]. exists w2.
  destruct (_save a w) as [a1 w1] eqn:Hs. cbn [fst snd] in *.
  destruct (save_attack_param a w i name p Hwf Hun Hi) with (a1 := a1) (w1 := w1) (w2 := w2)
    as (_ & _ & _ & p2 & Hi2 & _ & _ & _ & _ & _ & Hhit);
    [by rewrite Hb, lookup_empty | done..|].
  destruct Hhit as (g' & Hg' & Hval); [by rewrite Ht, Hp|].
  rewrite Hg in Hg'. injection Hg' as <-.
  exists p2. do 2 (split; [done|]). rewrite Hval.
  unfold bounds_of, r_at. cbn [fst snd].
  unfold clamp, tmin, tmax, tadd, tsub, tmuls, tdivs, smul, tabs.
  rewrite !length_zip_with, !length_fmap. lia.
Qed.
End awp_methods.

Section awp_cycle.
Import Torch AWP.
Context {F : Type} `{Dtype F} {Batch Loss : Type}.
Variable model_call : World F Batch Loss → Batch → Loss.
Variable zero_grad : World F Batch Loss → nat → option (Tensor F).
Variable backward : World F Batch Loss → Loss → nat → option (Tensor F).

Implicit Types (a : AWP.t F) (w : World F Batch Loss) (h : Store F)
  (p : Param F) (ps : list (string * Param F)) (name : string) (l : loc).

Abbreviation after_backward := (AWP.after_backward model_call zero_grad backward).
Abbreviation attack_backward := (AWP.attack_backward model_call zero_grad backward).

Lemma save_attack_trace a w w2 :
  _attack_step (_save a w).1 (_save a w).2 = Some w2 → trace w2 = trace w.
Proof.
  destruct (save_unfold a w) as (a1 & h1 & _ & ->). unfold _attack_step. simpl.
  destruct (attack_loop a1 h1 (params w)) as [[h2 ps2]|]; [|done]. simpl.
  by intros [= <-].
Qed.

Lemma set_grads_lookup (g : nat → option (Tensor F)) w i :
  params (set_grads g w) !! i
  = (λ np, (np.1, mkParam (requires_grad np.2) (g i) (data np.2))) <$> params w !! i.
Proof. unfold set_grads. cbn [params]. by rewrite list_lookup_imap. Qed.

Lemma after_backward_lookup w2 batch i :
  params (after_backward w2 batch) !! i
  = (λ np, (np.1,
            mkParam (requires_grad np.2)
              (backward (log ZeroGrad
                           (set_grads (zero_grad (log (Forward batch) w2))
                                      (log (Forward batch) w2)))
                        (model_call w2 batch) i)
              (data np.2))) <$> params w2 !! i.
Proof.
  unfold AWP.after_backward. cbv zeta.
  change (params (log ?e ?w)) with (params w).
  rewrite set_grads_lookup.
  change (params (log ?e ?w)) with (params w).
  rewrite set_grads_lookup.
  change (params (log ?e ?w)) with (params w).
  by destruct (params w2 !! i) as [[n q]|].
Qed.

(** X7.  A cycle with a non-zero step size calls, in this order and once
    each, the model's forward pass on the batch, [zero_grad], and
    [backward] on the loss that the forward pass computed from the
    perturbed parameters; nothing else is called. *)
Theorem attack_backward_calls a w batch :
  wf_world w → backup a = ∅ → PrimFloat.eqb (adv_lr a) 0 = false →
  ∃ a' w' w2,
    attack_backward a w batch = Some (a', w')
    ∧ _attack_step (_save a w).1 (_save a w).2 = Some w2
    ∧ trace w' = trace w ++ [Forward batch; ZeroGrad; Backward (model_call w2 batch)].
Proof.
  intros Hwf Hb Hlr. rewrite attack_backward_unfold by done.
  destruct (save_attack_total a w Hwf Hb) as [w2 Ha]. rewrite Ha.
  exists (_restore (_save a w).1 (after_backward w2 batch)).1,
         (_restore (_save a w).1 (after_backward w2 batch)).2, w2.
  split; [done|]. split; [done|]. simpl.
  rewrite (save_attack_trace _ _ _ Ha). by rewrite <- !app_assoc.
Qed.

(** X8.  After a cycle every parameter carries the gradient that
    [backward] left for the adversarial loss, under its old name and with
    its old [requires_grad]: [_restore] rebinds values only. *)
Theorem attack_backward_gradients a w batch :
  wf_world w → backup a = ∅ → PrimFloat.eqb (adv_lr a) 0 = false →
  ∃ a' w' w2,
    attack_backward a w batch = Some (a', w')
    ∧ _attack_step (_save a w).1 (_save a w).2 = Some w2
    ∧ ∀ i name p, params w !! i = Some (name, p) →
        ∃ p', params w' !! i = Some (name, p')
              ∧ requires_grad p' = requires_grad p
              ∧ grad p' =
                  backward (log ZeroGrad
                              (set_grads (zero_grad (log (Forward batch) w2))
                                         (log (Forward batch) w2)))
                           (model_call w2 batch) i.
Proof.
  intros Hwf Hb Hlr. rewrite attack_backward_unfold by done.
  destruct (save_attack_total a w Hwf Hb) as [w2 Ha]. rewrite Ha.
  exists (_restore (_save a w).1 (after_backward w2 batch)).1,
         (_restore (_save a w).1 (after_backward w2 batch)).2, w2.
  split; [done|]. split; [done|]. intros i name p Hi.
  destruct (save_unfold a w) as (a1 & h1 & Hf & Hs). rewrite Hs in *. cbn [fst snd] in *.
  unfold _attack_step in Ha. cbn [heap params trace] in Ha.
  destruct (attack_loop a1 h1 (params w)) as [[h2 ps2]|] eqn:E; [|done].
  cbn [mbind option_bind] in Ha. injection Ha as <-.
  destruct (save_loop_mono _ _ _ _ _ Hf) as (_ & [ext ->] & _).
  destruct Hwf as [Hv Hnn].
  assert (valid_locs (heap w ++ ext) (params w)) as Hv1 by by apply valid_locs_app.
  assert (∃ p2, ps2 !! i = Some (name, p2) ∧ requires_grad p2 = requires_grad p)
    as (p2 & Hi2 & Hrg).
  { clear -E Hv1 Hi. revert E Hv1 Hi. generalize (heap w ++ ext). generalize (params w).
    intros ps. revert ps2 i.
    induction ps as [|[n0 p0] ps IH]; intros ps2 i h; cbn [attack_loop]; [done|].
    intros Ha Hv Hi. apply Forall_cons in Hv as [Hv0 Hv]. simpl in Hv0.
    destruct (attack_param a1 h n0 p0) as [[h1 p1]|] eqn:E1; [|done]. simpl in Ha.
    destruct (attack_loop a1 h1 ps) as [[h2' rest]|] eqn:E2; [|done]. simpl in Ha.
    injection Ha as <- <-.
    destruct (attack_param_frame _ _ _ _ _ _ E1 Hv0) as (Hrg & _ & Hlen & _).
    destruct i as [|i]; simpl in *.
    - injection Hi as -> ->. eauto.
    - eapply IH; [done| |done]. eapply Forall_impl; [done|]. intros np ?. simpl in *. lia. }
  rewrite restore_lookup, after_backward_lookup. cbn [params]. rewrite Hi2. simpl.
  unfold restore_param. simpl. destruct (backup a1 !! name); eauto.
Qed.

Lemma save_loop_fresh ps a h a' h' name l :
  foldl save_param (a, h) ps = (a', h') →
  backup a' !! name = Some l →
  backup a !! name = Some l ∨ length h ≤ l.
Proof.
  revert a h. induction ps as [|[n0 p0] ps IH]; intros a h; cbn [foldl].
  - intros [= <- <-]. by left.
  - destruct (save_param_cases a h n0 p0) as [[-> _] | (-> & _ & _)]; intros Hf Hl;
      [by eapply IH|].
    destruct (IH _ _ Hf Hl) as [Hs|Hge]; simpl in *.
    + destruct (decide (n0 = name)) as [->|Hne].
      * rewrite lookup_insert_eq in Hs. injection Hs as <-. by right.
      * left. by rewrite lookup_insert_ne in Hs.
    + right. rewrite length_app in Hge. simpl in Hge. lia.
Qed.

(** Snapshots are pairwise distinct storages. *)
Lemma save_loop_inj ps a h a' h' :
  foldl save_param (a, h) ps = (a', h') →
  (∀ n l, backup a !! n = Some l → l < length h) →
  (∀ n1 n2 l, backup a !! n1 = Some l → backup a !! n2 = Some l → n1 = n2) →
  ∀ n1 n2 l, backup a' !! n1 = Some l → backup a' !! n2 = Some l → n1 = n2.
Proof.
  revert a h. induction ps as [|[n0 p0] ps IH]; intros a h; cbn [foldl].
  - by intros [= <- <-].
  - destruct (save_param_cases a h n0 p0) as [[-> _] | (-> & _ & Hb)]; [by apply IH|].
    intros Hf Hlt Hinj. apply (IH _ _ Hf); simpl.
    + intros n l. rewrite length_app. simpl.
      destruct (decide (n0 = n)) as [->|Hne].
      * rewrite lookup_insert_eq. intros [= <-]. lia.
      * rewrite lookup_insert_ne by done. intros Hl%Hlt. lia.
    + intros n1 n2 l.
      destruct (decide (n0 = n1)) as [E1|Hne1], (decide (n0 = n2)) as [E2|Hne2];
        try subst n1; try subst n2;
        rewrite ?lookup_insert_eq, ?lookup_insert_ne by done; try done.
      * intros [= <-] Hl%Hlt. lia.
      * intros Hl%Hlt [= <-]. lia.
      * apply Hinj.
Qed.
(** What a cycle does to the [i]-th parameter: its value is kept; a target
    ends on its snapshot's storage, any other parameter on its own. *)
Lemma cycle_param a w batch w2 i name p :
  wf_world w → unshared w → backup a = ∅ →
  _attack_step (_save a w).1 (_save a w).2 = Some w2 →
  params w !! i = Some (name, p) →
  ∃ p', params (_restore (_save a w).1 (after_backward w2 batch)).2 !! i = Some (name, p')
    ∧ value (heap (_restore (_save a w).1 (after_backward w2 batch)).2) p'
      = value (heap w) p
    ∧ (if is_target a name p
       then backup (_save a w).1 !! name = Some (data p') ∧ length (heap w) ≤ data p'
       else data p' = data p).
Proof.
  intros Hwf Hun Hb Ha Hi.
  destruct (_save a w) as [a1 w1] eqn:Hs. cbn [fst snd] in *.
  destruct (save_attack_param a w i name p Hwf Hun Hi) with (a1 := a1) (w1 := w1) (w2 := w2)
    as (_ & _ & _ & p2 & Hi2 & _ & _ & Hsnap & Hnone & Hskip & _);
    [by rewrite Hb, lookup_empty | done..|].
  rewrite restore_lookup, after_backward_lookup, Hi2. simpl.
  unfold restore_param. simpl.
  destruct (is_target a name p) eqn:Ht.
  - destruct (Hsnap eq_refl) as (l & Hl & Hd & _). rewrite Hl.
    eexists. split; [done|]. split; [done|]. simpl. split; [done|].
    destruct (save_unfold a w) as (a1' & h1 & Hf & Hs'). rewrite Hs' in Hs.
    injection Hs as <- <-.
    destruct (save_loop_fresh _ _ _ _ _ _ _ Hf Hl) as [Hold|?]; [|done].
    by rewrite Hb, lookup_empty in Hold.
  - rewrite (Hnone eq_refl). destruct (Hskip eq_refl) as [-> Hval].
    eexists. split; [done|]. by split.
Qed.

(** X9.  A cycle re-establishes what it asked for: it returns with both
    mappings empty, on a world that is well formed and unshared again, in
    which every parameter, target or not, has the value it had before. *)
Theorem attack_backward_invariant a w batch :
  wf_world w → unshared w → backup a = ∅ →
  PrimFloat.eqb (adv_lr a) 0 = false →
  ∃ a' w',
    attack_backward a w batch = Some (a', w')
    ∧ wf_world w' ∧ unshared w'
    ∧ backup a' = ∅ ∧ backup_eps a' = ∅
    ∧ ∀ i name p, params w !! i = Some (name, p) →
        ∃ p', params w' !! i = Some (name, p')
              ∧ value (heap w') p' = value (heap w) p.
Proof.
  intros Hwf Hun Hb Hlr.
  destruct (save_attack_total a w Hwf Hb) as [w2 Ha].
  exists (_restore (_save a w).1 (after_backward w2 batch)).1,
         (_restore (_save a w).1 (after_backward w2 batch)).2.
  assert (attack_backward a w batch
          = Some ((_restore (_save a w).1 (after_backward w2 batch)).1,
                  (_restore (_save a w).1 (after_backward w2 batch)).2)) as Hrun.
  { rewrite attack_backward_unfold by done. by rewrite Ha. }
  split; [done|].
  destruct (attack_backward_ready model_call zero_grad backward _ _ _ _ _ Hwf Hb Hlr Hrun)
    as (Hb' & Hbe' & Hnames & Hvalid).
  set (w' := (_restore (_save a w).1 (after_backward w2 batch)).2) in *.
  pose proof (cycle_param a w batch w2) as Hcyc. fold w' in Hcyc.
  destruct Hwf as [Hv Hnn].
  split; [split; [done | by rewrite Hnames]|].
  split; [|split; [done|split; [done|]]].
  - apply NoDup_alt. intros i j x Hxi Hxj. unfold locs in Hxi, Hxj.
    rewrite list_lookup_fmap in Hxi, Hxj.
    destruct (params w' !! i) as [[ni pi']|] eqn:Hi'; [|done].
    destruct (params w' !! j) as [[nj pj']|] eqn:Hj'; [|done].
    simpl in Hxi, Hxj. injection Hxi as Hxi. injection Hxj as Hxj.
    assert (∃ pi, params w !! i = Some (ni, pi)) as [pi Hi].
    { assert ((params w).*1 !! i = Some ni) as Hn
        by (by rewrite <- Hnames, list_lookup_fmap, Hi').
      rewrite list_lookup_fmap in Hn. destruct (params w !! i) as [[? ?]|]; [|done].
      injection Hn as ->. eauto. }
    assert (∃ pj, params w !! j = Some (nj, pj)) as [pj Hj].
    { assert ((params w).*1 !! j = Some nj) as Hn
        by (by rewrite <- Hnames, list_lookup_fmap, Hj').
      rewrite list_lookup_fmap in Hn. destruct (params w !! j) as [[? ?]|]; [|done].
      injection Hn as ->. eauto. }
    destruct (Hcyc i ni pi (conj Hv Hnn) Hun Hb Ha Hi) as (pi2 & Hi2 & _ & Hci).
    destruct (Hcyc j nj pj (conj Hv Hnn) Hun Hb Ha Hj) as (pj2 & Hj2 & _ & Hcj).
    rewrite Hi' in Hi2. injection Hi2 as <-. rewrite Hj' in Hj2. injection Hj2 as <-.
    assert (data pi < length (heap w)) as Hli by exact (Forall_lookup_1 _ _ _ _ Hv Hi).
    assert (data pj < length (heap w)) as Hlj by exact (Forall_lookup_1 _ _ _ _ Hv Hj).
    destruct (is_target a ni pi), (is_target a nj pj).
    + destruct Hci as [Hbi _], Hcj as [Hbj _]. rewrite Hxi in Hbi. rewrite Hxj in Hbj.
      destruct (save_unfold a w) as (a1 & h1 & Hf & Hs). rewrite Hs in Hbi, Hbj.
      cbn [fst] in Hbi, Hbj.
      assert (ni = nj) as ->.
      { eapply (save_loop_inj _ _ _ _ _ Hf); [| |done..]; intros *;
          by rewrite Hb, lookup_empty. }
      eapply NoDup_lookup; [exact Hnn| |]; by rewrite list_lookup_fmap, ?Hi, ?Hj.
    + destruct Hci as [_ Hge]. lia.
    + destruct Hcj as [_ Hge]. lia.
    + apply (NoDup_lookup _ i j (data pi) Hun); unfold locs;
        rewrite list_lookup_fmap, ?Hi, ?Hj; simpl; congruence.
  - intros i name p Hi.
    destruct (Hcyc i name p (conj Hv Hnn) Hun Hb Ha Hi) as (p' & Hi' & Hval & _). eauto.
Qed.

Lemma restores_first_snapshot a w batch i name p l :
  valid_locs (heap w) (params w) →
  (∀ n, is_Some (backup a !! n) → is_Some (backup_eps a !! n)) →
  PrimFloat.eqb (adv_lr a) 0 = false →
  params w !! i = Some (name, p) →
  backup a !! name = Some l →
  l < length (heap w) → l ∉ locs (params w) →
  ∃ a' w' p',
    attack_backward a w batch = Some (a', w')
    ∧ params w' !! i = Some (name, p')
    ∧ data p' = l
    ∧ value (heap w') p' = deref (heap w) l
    ∧ backup a' = ∅ ∧ backup_eps a' = ∅.
Proof.
  intros Hv Hdom Hlr Hi Hl Hlt Hnin. rewrite attack_backward_unfold by done.
  destruct (save_unfold a w) as (a1 & h1 & Hf & ->). cbn [fst snd].
  destruct (save_loop_mono _ _ _ _ _ Hf) as (Hc & [ext ->] & Hk).
  destruct (Hk _ _ Hl) as [Hl1 _].
  assert (valid_locs (heap w ++ ext) (params w)) as Hv1 by by apply valid_locs_app.
  destruct (attack_loop_total (params w) a1 (heap w ++ ext) Hv1) as [[h2 ps2] E].
  { intros n q Hin Ht. rewrite (is_target_config a a1) in Ht by done.
    apply (save_loop_bounds _ _ _ _ _ _ Hf (Hdom n)). by eapply save_loop_covers. }
  unfold _attack_step. cbn [heap params trace]. rewrite E. cbn [mbind option_bind].
  destruct (attack_loop_frame _ _ _ _ _ E Hv1) as (Hnames & _ & Hfr).
  assert (ps2.*1 !! i = Some name) as Hn2 by (by rewrite Hnames, list_lookup_fmap, Hi).
  rewrite list_lookup_fmap in Hn2.
  destruct (ps2 !! i) as [[n2 p2]|] eqn:Hi2; [|done]. injection Hn2 as ->.
  exists (_restore a1 (after_backward (mkWorld h2 ps2 (trace w)) batch)).1,
         (_restore a1 (after_backward (mkWorld h2 ps2 (trace w)) batch)).2.
  eexists. split; [done|].
  rewrite restore_lookup, after_backward_lookup. cbn [params]. rewrite Hi2. simpl.
  unfold restore_param. simpl. rewrite Hl1. split; [done|]. split; [done|].
  split; [|done].
  unfold value, deref. simpl. rewrite !list_lookup_total_alt.
  rewrite Hfr; [| rewrite length_app; lia | done].
  by rewrite lookup_app_l.
Qed.

(** X10.  A cycle that starts with a name already in [backup], as an
    interrupted cycle leaves it, keeps that entry ([_save] skips the name)
    and ends with the parameter on the old snapshot: the value restored is
    the one saved first, not the value the second cycle found. *)
Theorem attack_backward_restores_first_snapshot a w batch i name p l :
  valid_locs (heap w) (params w) →
  (∀ n, is_Some (backup a !! n) → is_Some (backup_eps a !! n)) →
  PrimFloat.eqb (adv_lr a) 0 = false →
  params w !! i = Some (name, p) →
  backup a !! name = Some l →
  l < length (heap w) → l ∉ locs (params w) →
  ∃ a' w' p',
    attack_backward a w batch = Some (a', w')
    ∧ params w' !! i = Some (name, p')
    ∧ data p' = l
    ∧ value (heap w') p' = deref (heap w) l.
Proof.
  intros Hv Hdom Hlr Hi Hl Hlt Hnin.
  destruct (restores_first_snapshot a w batch i name p l)
    as (a' & w' & p' & ? & ? & ? & ? & _); eauto 10.
Qed.

(** The storages [_attack_step] binds parameters to are their old ones or
    new ones: none lies between the two. *)
Lemma attack_loop_locs ps a h h' ps' n :
  attack_loop a h ps = Some (h', ps') →
  Forall (λ np, data np.2 < n) ps → n ≤ length h →
  Forall (λ np, data np.2 < n ∨ length h ≤ data np.2) ps'.
Proof.
  revert h h' ps'. induction ps as [|[n0 p0] ps IH]; intros h h' ps'; cbn [attack_loop].
  - intros [= <- <-] _ _. constructor.
  - intros Ha Hv Hn. apply Forall_cons in Hv as [Hv0 Hv]. simpl in Hv0.
    destruct (attack_param a h n0 p0) as [[h1 p1]|] eqn:E1; [|done]. simpl in Ha.
    destruct (attack_loop a h1 ps) as [[h2 rest]|] eqn:E2; [|done]. simpl in Ha.
    injection Ha as <- <-.
    assert (data p0 < length h) as Hv0' by lia.
    destruct (attack_param_frame _ _ _ _ _ _ E1 Hv0') as (_ & _ & Hlen & _).
    apply Forall_cons. split.
    + simpl. destruct (attack_param_cases _ _ _ _ _ _ E1 Hv0')
        as [(_ & -> & ->) | (g & lo & hi & _ & _ & _ & _ & -> & ->)]; [by left|].
      right. simpl. lia.
    + eapply Forall_impl; [apply (IH _ _ _ E2 Hv); lia|].
      intros np [?|?]; [by left | right; lia].
Qed.
End awp_cycle.

(** * More of the model wrapper *)

Section matcha_freeze.
Import Torch Matcha.
Context {F : Type} `{Dtype F}.
Implicit Types (b : Backbone F) (ps : list (Param F)) (ids : list nat).

Lemma freeze_unfold b b' :
  freeze b = Some b' →
  ∃ k, to_freeze_layer (num_hidden_layers b) = Some k
       ∧ b' = mkBackbone (num_hidden_layers b)
                (freeze_module (frozen_ids b k) (parameters b))
                (encoder_layer b) (embeddings b) (decoder b).
Proof.
  unfold freeze. destruct (to_freeze_layer (num_hidden_layers b)) as [k|]; [|done].
  simpl. intros [= <-]. exists k. split; [done|]. f_equal.
  rewrite freeze_layers_concat. unfold frozen_ids, freeze_module. by rewrite foldl_app.
Qed.

Lemma freeze_module_twice ids ps :
  freeze_module ids (freeze_module ids ps) = freeze_module ids ps.
Proof.
  apply list_eq. intros j. rewrite !freeze_module_lookup.
  destruct (ps !! j) as [p|]; [|done]. simpl. by case_bool_decide.
Qed.

Lemma elem_of_concat_2 (layers : list (list nat)) layer j :
  layer ∈ layers → j ∈ layer → j ∈ concat layers.
Proof.
  induction layers as [|l0 layers IH]; intros Hin Hj; [by apply elem_of_nil in Hin|].
  simpl. apply elem_of_app. apply elem_of_cons in Hin as [->|Hin]; auto.
Qed.

(** X11.  The freezing statements of [__init__] change nothing but
    [requires_grad], and only from [True] to [False]: the parameters are
    as many as before, each keeps its gradient and its storage, none is
    switched on, and freezing again changes nothing. *)
Theorem freeze_only_disables b b' :
  freeze b = Some b' →
  length (parameters b') = length (parameters b)
  ∧ (∀ j p', parameters b' !! j = Some p' →
       ∃ p, parameters b !! j = Some p ∧ grad p' = grad p ∧ data p' = data p
            ∧ (requires_grad p' = true → requires_grad p = true))
  ∧ freeze b' = Some b'.
Proof.
  intros (k & Hk & ->)%freeze_unfold. simpl. split; [|split].
  - unfold freeze_module. generalize (parameters b).
    induction (frozen_ids b k) as [|i ids IH]; intros ps; simpl; [done|].
    by rewrite IH, length_alter.
  - intros j p'. rewrite freeze_module_lookup.
    destruct (parameters b !! j) as [p|]; [|done]. simpl. intros [= <-].
    exists p. split; [done|]. by case_bool_decide.
  - unfold freeze. simpl. rewrite Hk. simpl. f_equal. f_equal.
    rewrite freeze_layers_concat.
    change (freeze_module (embeddings b)
              (freeze_module (concat (Py.slice_to k (encoder_layer b)))
                 (freeze_module (frozen_ids b k) (parameters b)))
            = freeze_module (frozen_ids b k) (parameters b)).
    assert (∀ ps, freeze_module (embeddings b)
                    (freeze_module (concat (Py.slice_to k (encoder_layer b))) ps)
                  = freeze_module (frozen_ids b k) ps) as ->.
    { intros ps. unfold frozen_ids, freeze_module. by rewrite foldl_app. }
    apply freeze_module_twice.
Qed.

(** X12.  With at most two hidden layers [int(0.4 * n)] is 0 and the slice
    [encoder.layer[:0]] is empty: [requires_grad] ends [False] on the
    embedding parameters, and every other parameter, those of the encoder
    layers among them, is as it was. *)
Theorem freeze_few_layers b :
  (0 ≤ num_hidden_layers b ≤ 2)%Z →
  to_freeze_layer (num_hidden_layers b) = Some 0%Z
  ∧ Py.slice_to 0 (encoder_layer b) = []
  ∧ ∃ b', freeze b = Some b'
      ∧ (∀ j p', j ∈ embeddings b →
           parameters b' !! j = Some p' → requires_grad p' = false)
      ∧ (∀ j, j ∉ embeddings b → parameters b' !! j = parameters b !! j)
      ∧ (∀ j p, parameters b !! j = Some p →
           ∃ p', parameters b' !! j = Some p'
                 ∧ grad p' = grad p ∧ data p' = data p
                 ∧ requires_grad p'
                   = if bool_decide (j ∈ embeddings b) then false else requires_grad p).
Proof.
  intros Hn.
  assert (to_freeze_layer (num_hidden_layers b) = Some 0%Z) as Hk.
  { rewrite to_freeze_layer_floor by lia. f_equal.
    apply Z.div_small. lia. }
  split; [done|]. split; [done|].
  destruct (freeze_lookup b _ Hk) as (b' & Hf & _ & _ & _ & Hps).
  exists b'. split; [done|].
  assert (∀ j, parameters b' !! j
               = (if bool_decide (j ∈ embeddings b) then no_grad else id)
                   <$> parameters b !! j) as Hps'.
  { intros j. rewrite Hps. unfold frozen_ids. by rewrite (slice_to_take 0). }
  split; [|split].
  - intros j p' Hj. rewrite Hps', bool_decide_eq_true_2 by done.
    destruct (parameters b !! j) as [p|]; [|done]. simpl. by intros [= <-].
  - intros j Hj. rewrite Hps', bool_decide_eq_false_2 by done.
    by destruct (parameters b !! j).
  - intros j p Hp. rewrite Hps', Hp. simpl. eexists. split; [done|].
    by case_bool_decide.
Qed.

(** X13.  A layer count whose 40% reaches past the end of [encoder.layer]
    raises nothing: the slice is the whole list and every parameter of
    every encoder layer is frozen. *)
Theorem freeze_past_the_end b :
  (0 ≤ num_hidden_layers b ≤ 100000)%Z →
  (Z.of_nat (length (encoder_layer b)) ≤ 4 * num_hidden_layers b / 10)%Z →
  ∃ b', freeze b = Some b'
        ∧ ∀ layer j p', layer ∈ encoder_layer b → j ∈ layer →
            parameters b' !! j = Some p' → requires_grad p' = false.
Proof.
  intros Hn Hlen. destruct (freeze b) as [b'|] eqn:Hf.
  - exists b'. split; [done|]. apply freeze_unfold in Hf as (k & Hk & ->). simpl.
    rewrite to_freeze_layer_floor in Hk by done. injection Hk as <-.
    intros layer j p' Hlayer Hj. rewrite freeze_module_lookup.
    rewrite bool_decide_eq_true_2.
    + destruct (parameters b !! j) as [p|]; [|done]. simpl. by intros [= <-].
    + unfold frozen_ids. apply elem_of_app. left.
      rewrite slice_to_take by (apply Z.div_pos; lia).
      rewrite take_ge by lia. by eapply elem_of_concat_2.
  - unfold freeze in Hf. by rewrite to_freeze_layer_floor in Hf.
Qed.
End matcha_freeze.

(** * The controller on the wrapped model *)

Section awp_on_matcha.
Import Torch Matcha AWP.
Context {F : Type} `{Dtype F} {Batch Loss : Type}.
Variable model_call : World F Batch Loss → Batch → Loss.
Variable zero_grad : World F Batch Loss → nat → option (Tensor F).
Variable backward : World F Batch Loss → Loss → nat → option (Tensor F).

(** [model.named_parameters()] when the model is the wrapper: the parameter
    objects of the backbone, each under its name. *)
Definition named_parameters (names : list string) (b : Backbone F)
    : list (string * Param F) :=
  zip names (parameters b).

(** X14.  A parameter that [__init__] froze is never a target of the
    controller, whatever its name and gradient: a cycle neither backs it up
    nor rebinds it, and its value stays. *)
Theorem frozen_never_attacked (a : AWP.t F) (w : World F Batch Loss)
    (b b' : Backbone F) k names j name p batch :
  freeze b = Some b' →
  to_freeze_layer (num_hidden_layers b) = Some k →
  j ∈ frozen_ids b k →
  params w = named_parameters names b' →
  wf_world w → unshared w → backup a = ∅ →
  params w !! j = Some (name, p) →
  is_target a name p = false
  ∧ ∃ w2, _attack_step (_save a w).1 (_save a w).2 = Some w2
      ∧ backup (_save a w).1 !! name = None
      ∧ ∃ p', params (_restore (_save a w).1
                        (AWP.after_backward model_call zero_grad backward w2 batch)).2 !! j
                = Some (name, p')
              ∧ data p' = data p
              ∧ value (heap (_restore (_save a w).1
                               (AWP.after_backward model_call zero_grad backward w2 batch)).2) p'
                = value (heap w) p.
Proof.
  intros (k' & Hk' & ->)%freeze_unfold Hk Hj Hps Hwf Hun Hb Hi.
  rewrite Hk in Hk'. injection Hk' as <-.
  assert (requires_grad p = false) as Hrg.
  { rewrite Hps in Hi. unfold named_parameters in Hi. simpl in Hi.
    apply lookup_zip_with_Some in Hi as (n & q & [= -> ->] & _ & Hq).
    rewrite freeze_module_lookup, bool_decide_eq_true_2 in Hq by done.
    destruct (parameters b !! j) as [q0|]; [|done]. simpl in Hq. by injection Hq as <-. }
  assert (is_target a name p = false) as Ht by (by unfold is_target; rewrite Hrg).
  split; [done|].
  destruct (save_attack_total a w Hwf Hb) as [w2 Ha]. exists w2. split; [done|].
  destruct (cycle_param model_call zero_grad backward a w batch w2 j name p
              Hwf Hun Hb Ha Hi) as (p' & Hi' & Hval & Hcase).
  rewrite Ht in Hcase. split; [|by eauto].
  destruct (_save a w) as [a1 w1] eqn:Hs. cbn [fst snd] in *.
  destruct (save_attack_param a w j name p Hwf Hun Hi) with (a1 := a1) (w1 := w1) (w2 := w2)
    as (_ & _ & _ & _ & _ & _ & _ & _ & Hnone & _);
    [by rewrite Hb, lookup_empty | done..|]. by apply Hnone.
Qed.
End awp_on_matcha.

(** * Exceptions *)

(** How a call ends: it returns, or an exception leaves it; either way the
    state it reached stays. *)
Inductive outcome (S : Type) :=
| Returned (s : S)
| Raised (s : S).

Arguments Returned {S} s.
Arguments Raised {S} s.

Section awp_exceptions.
Import Torch AWP.
Context {F : Type} `{Dtype F} {X Loss : Type}.

(** The batch is a dict; the model is called with three of its values. *)
Abbreviation Batch := (X * X * X)%type.

Variable model : World F Batch Loss → X → X → X → Loss.
Variable zero_grad : World F Batch Loss → nat → option (Tensor F).
Variable backward : World F Batch Loss → Loss → nat → option (Tensor F).

Implicit Types (a : AWP.t F) (w : World F Batch Loss) (h : Store F)
  (p : Param F) (ps : list (string * Param F)) (name : string) (l : loc)
  (batch : gmap string X).

(** [self.model(flattened_patches=..., attention_mask=..., labels=...)],
    of which [attack_backward] keeps the first component. *)
Definition model_call_3 w (args : Batch) : Loss :=
  model w args.1.1 args.1.2 args.2.

(** One iteration of [_attack_step]; the [KeyError] of
    [self.backup_eps[name]] comes after the in-place [add_]. *)
Definition attack_param_exc a h name p : outcome (Store F * Param F) :=
  if is_target a name p then
    match grad p with
    | Some g =>
        let norm1 := norm g in
        let norm2 := norm (value h p) in
        if ne norm1 (of_py 0) && negb (isnan norm1) then
          let h1 := store h (data p) (tadd (value h p) (r_at a g norm1 norm2)) in
          match backup_eps a !! name with
          | Some (lower, upper) =>
              let '(h2, l) := alloc h1 (tmin (tmax (value h1 p) lower) upper) in
              Returned (h2, mkParam (requires_grad p) (grad p) l)
          | None => Raised (h1, p)
          end
        else Returned (h, p)
    | None => Returned (h, p)
    end
  else Returned (h, p).

Fixpoint attack_loop_exc a h ps : outcome (Store F * list (string * Param F)) :=
  match ps with
  | [] => Returned (h, [])
  | (name, p) :: rest =>
      match attack_param_exc a h name p with
      | Raised (h1, p') => Raised (h1, (name, p') :: rest)
      | Returned (h1, p') =>
          match attack_loop_exc a h1 rest with
          | Returned (h2, rest') => Returned (h2, (name, p') :: rest')
          | Raised (h2, rest') => Raised (h2, (name, p') :: rest')
          end
      end
  end.

Definition _attack_step_exc a w : outcome (World F Batch Loss) :=
  match attack_loop_exc a (heap w) (params w) with
  | Returned (h', ps') => Returned (mkWorld h' ps' (trace w))
  | Raised (h', ps') => Raised (mkWorld h' ps' (trace w))
  end.

(** [attack_backward] on a dict: the three [batch[...]] are evaluated in
    order before the model is called, after [_save] and [_attack_step], and
    nothing catches an exception. *)
Definition attack_backward_exc a w batch : outcome (AWP.t F * World F Batch Loss) :=
  if PrimFloat.eqb (adv_lr a) 0%float then Returned (a, w)
  else
    let '(a1, w1) := _save a w in
    match _attack_step_exc a1 w1 with
    | Raised w2 => Raised (a1, w2)
    | Returned w2 =>
        match batch !! "flattened_patches" with
        | None => Raised (a1, w2)
        | Some flattened_patches =>
            match batch !! "attention_mask" with
            | None => Raised (a1, w2)
            | Some attention_mask =>
                match batch !! "labels" with
                | None => Raised (a1, w2)
                | Some labels =>
                    Returned
                      (_restore a1
                         (AWP.after_backward model_call_3 zero_grad backward w2
                            (flattened_patches, attention_mask, labels)))
                end
            end
        end
    end.

Lemma attack_param_exc_agrees a h name p :
  attack_param a h name p
  = match attack_param_exc a h name p with Returned r => Some r | Raised _ => None end.
Proof.
  unfold attack_param, attack_param_exc. destruct (is_target a name p); [|done].
  destruct (grad p) as [g|]; [|done].
  destruct (ne (norm g) (of_py 0) && negb (isnan (norm g))); [|done].
  by destruct (backup_eps a !! name) as [[lo hi]|].
Qed.

Lemma attack_loop_exc_agrees ps a h :
  attack_loop a h ps
  = match attack_loop_exc a h ps with Returned r => Some r | Raised _ => None end.
Proof.
  revert h. induction ps as [|[n0 p0] ps IH]; intros h;
    cbn [attack_loop attack_loop_exc]; [done|].
  rewrite attack_param_exc_agrees.
  destruct (attack_param_exc a h n0 p0) as [[h1 p1]|[h1 p1]]; [|done]. simpl.
  rewrite IH. by destruct (attack_loop_exc a h1 ps) as [[h2 rest]|[h2 rest]].
Qed.

(** The two embeddings of [_attack_step] agree. *)
Lemma attack_step_exc_agrees a w :
  _attack_step a w
  = match _attack_step_exc a w with Returned w' => Some w' | Raised _ => None end.
Proof.
  unfold _attack_step, _attack_step_exc. rewrite attack_loop_exc_agrees.
  by destruct (attack_loop_exc a (heap w) (params w)) as [[h' ps']|[h' ps']].
Qed.

(** On a batch that has the three keys, [attack_backward_exc] returns
    what [attack_backward] returns, and raises when it is [None]. *)
Lemma attack_backward_exc_agrees a w batch fp am lb :
  batch !! "flattened_patches" = Some fp →
  batch !! "attention_mask" = Some am →
  batch !! "labels" = Some lb →
  AWP.attack_backward model_call_3 zero_grad backward a w (fp, am, lb)
  = match attack_backward_exc a w batch with Returned r => Some r | Raised _ => None end.
Proof.
  intros Hfp Ham Hlb. unfold AWP.attack_backward, attack_backward_exc.
  destruct (PrimFloat.eqb (adv_lr a) 0); [done|].
  destruct (_save a w) as [a1 w1]. rewrite attack_step_exc_agrees.
  destruct (_attack_step_exc a1 w1) as [w2|w2]; [|done]. simpl.
  by rewrite Hfp, Ham, Hlb.
Qed.
(** A batch that lacks one of the three keys. *)
Definition lacks_a_key batch : Prop :=
  batch !! "flattened_patches" = None ∨ batch !! "attention_mask" = None
  ∨ batch !! "labels" = None.

Lemma missing_key_raises a w batch :
  wf_world w → backup a = ∅ → PrimFloat.eqb (adv_lr a) 0 = false →
  lacks_a_key batch →
  ∃ w2, attack_backward_exc a w batch = Raised ((_save a w).1, w2)
        ∧ _attack_step (_save a w).1 (_save a w).2 = Some w2.
Proof.
  intros Hwf Hb Hlr Hkey. destruct (save_attack_total a w Hwf Hb) as [w2 Ha].
  exists w2. split; [|done]. unfold attack_backward_exc. rewrite Hlr.
  destruct (_save a w) as [a1 w1]. cbn [fst snd] in *.
  rewrite attack_step_exc_agrees in Ha.
  destruct (_attack_step_exc a1 w1) as [w2'|w2']; [|done]. injection Ha as ->.
  destruct Hkey as [-> | [Hk | Hk]]; [done | |].
  - destruct (batch !! "flattened_patches"); [|done]. by rewrite Hk.
  - destruct (batch !! "flattened_patches"); [|done].
    destruct (batch !! "attention_mask"); [|done]. by rewrite Hk.
Qed.

(** X15.  When the batch lacks one of its three keys, the [KeyError]
    leaves [attack_backward] after [_save] and [_attack_step]: the
    parameters stay as [_attack_step] perturbed them, every target stays in
    [backup], and neither the forward pass nor [zero_grad] nor [backward]
    has been called. *)
Theorem missing_batch_key_leaves_perturbed a w batch :
  wf_world w → backup a = ∅ → PrimFloat.eqb (adv_lr a) 0 = false →
  lacks_a_key batch →
  ∃ w2, attack_backward_exc a w batch = Raised ((_save a w).1, w2)
        ∧ _attack_step (_save a w).1 (_save a w).2 = Some w2
        ∧ trace w2 = trace w
        ∧ ∀ name p, (name, p) ∈ params w → is_target a name p = true →
            is_Some (backup (_save a w).1 !! name).
Proof.
  intros Hwf Hb Hlr Hkey.
  destruct (missing_key_raises a w batch Hwf Hb Hlr Hkey) as (w2 & Hraise & Ha).
  exists w2. do 2 (split; [done|]). split; [by eapply save_attack_trace|].
  intros name p Hin Ht. destruct (save_unfold a w) as (a1 & h1 & Hf & ->). simpl.
  by eapply save_loop_covers.
Qed.

(** X16.  The next cycle that completes repairs an interrupted one: after
    a [KeyError] on the batch, a call with a full batch returns, and every
    target of the interrupted cycle is back on the value it had before
    either call; both mappings are empty again. *)
Theorem interrupted_cycle_recovers a w batch batch' fp am lb i name p :
  wf_world w → backup a = ∅ → PrimFloat.eqb (adv_lr a) 0 = false →
  lacks_a_key batch →
  batch' !! "flattened_patches" = Some fp →
  batch' !! "attention_mask" = Some am →
  batch' !! "labels" = Some lb →
  params w !! i = Some (name, p) → is_target a name p = true →
  ∃ a1 w2 a' w' p',
    attack_backward_exc a w batch = Raised (a1, w2)
    ∧ attack_backward_exc a1 w2 batch' = Returned (a', w')
    ∧ params w' !! i = Some (name, p')
    ∧ value (heap w') p' = value (heap w) p
    ∧ backup a' = ∅ ∧ backup_eps a' = ∅.
Proof.
  intros Hwf Hb Hlr Hkey Hfp Ham Hlb Hi Ht.
  destruct (missing_key_raises a w batch Hwf Hb Hlr Hkey) as (w2 & Hraise & Ha).
  exists (_save a w).1, w2.
  destruct (_save a w) as [a1 w1] eqn:Hs. cbn [fst snd] in *.
  destruct (save_attack_snapshot a w i name p Hwf Hi) with (a1 := a1) (w1 := w1) (w2 := w2)
    as (l & p2 & Hl & Hd & _ & Hi2); [by rewrite Hb, lookup_empty | done..|].
  destruct (save_unfold a w) as (a1' & h1 & Hf & Hs'). rewrite Hs' in Hs.
  injection Hs as <- <-. unfold _attack_step in Ha. cbn [heap params trace] in Ha.
  destruct (attack_loop a1' h1 (params w)) as [[h2 ps2]|] eqn:E; [|done].
  cbn [mbind option_bind] in Ha. injection Ha as <-. cbn [heap params] in *.
  destruct Hwf as [Hv Hnn].
  destruct (save_loop_mono _ _ _ _ _ Hf) as (Hc & [ext Hext] & _).
  assert (valid_locs h1 (params w)) as Hv1 by (rewrite Hext; by apply valid_locs_app).
  destruct (attack_loop_frame _ _ _ _ _ E Hv1) as (_ & Hlen & _).
  assert (length (heap w) ≤ l) as Hge.
  { destruct (save_loop_fresh _ _ _ _ _ _ _ Hf Hl) as [Hold|?]; [|done].
    by rewrite Hb, lookup_empty in Hold. }
  assert (l < length h1) as Hlt.
  { destruct (save_loop_valid _ _ _ _ _ _ _ Hf Hl) as [Hold|?]; [|done].
    by rewrite Hb, lookup_empty in Hold. }
  destruct (restores_first_snapshot model_call_3 zero_grad backward
              a1' (mkWorld h2 ps2 (trace w)) (fp, am, lb) i name p2 l)
    as (a' & w' & p' & Hrun & Hi' & _ & Hval & Hb' & Hbe').
  - by eapply attack_loop_valid.
  - intros n. apply (save_loop_bounds _ _ _ _ _ _ Hf).
    rewrite Hb, lookup_empty. by intros [? ?].
  - destruct Hc as (_ & -> & _). done.
  - done.
  - done.
  - simpl. lia.
  - simpl. intros Hin. apply list_elem_of_fmap in Hin as (np & -> & Hin).
    assert (length (heap w) ≤ length h1) as Hmono by (rewrite Hext, length_app; lia).
    pose proof (attack_loop_locs _ _ _ _ _ (length (heap w)) E Hv Hmono) as Hlocs.
    eapply Forall_forall in Hlocs; [|done]. simpl in Hlocs. lia.
  - rewrite (attack_backward_exc_agrees a1' _ batch' fp am lb Hfp Ham Hlb) in Hrun.
    destruct (attack_backward_exc a1' (mkWorld h2 ps2 (trace w)) batch') as [r|r]; [|done].
    injection Hrun as ->. exists a', w', p'. do 3 (split; [done|]).
    split; [|done]. by rewrite Hval.
Qed.


End awp_exceptions.

(** * The added properties, run *)

Module ExampleMore.
Import Torch Float64 AWP Example.

(** A backbone of five encoder layers with one weight each, one embedding
    and one decoder weight, every parameter on its own storage. *)
Definition tiny : Matcha.Backbone float :=
  Matcha.mkBackbone 5
    ((λ i, mkParam true (Some [1%float]) i) <$> seq 0 7)
    [[0]; [1]; [2]; [3]; [4]] [5] [6].

Definition tiny_frozen : Matcha.Backbone float :=
  Matcha.mkBackbone 5
    ((λ i, mkParam (bool_decide (i ∉ [0; 1; 5])) (Some [1%float]) i) <$> seq 0 7)
    [[0]; [1]; [2]; [3]; [4]] [5] [6].

Definition tiny_names : list string :=
  ["backbone.encoder.layer.0.weight"; "backbone.encoder.layer.1.weight";
   "backbone.encoder.layer.2.weight"; "backbone.encoder.layer.3.weight";
   "backbone.encoder.layer.4.weight"; "backbone.embeddings.weight";
   "backbone.decoder.weight"].

Definition tiny_world : World float unit float :=
  mkWorld ((λ i, [2%float]) <$> seq 0 7)
          (named_parameters tiny_names tiny_frozen) [].

(** Two hidden layers; and a layer count of ten over three layers. *)
Definition two_layers : Matcha.Backbone float :=
  Matcha.mkBackbone 2 (replicate 4 (mkParam true None 0)) [[0]; [1]] [2] [3].

Definition short_encoder : Matcha.Backbone float :=
  Matcha.mkBackbone 10 (replicate 5 (mkParam true None 0)) [[0]; [1]; [2]] [3] [4].

(** A model of three arguments, and two batches. *)
Definition model (w : World float (float * float * float) float)
    (flattened_patches attention_mask labels : float) : float :=
  labels.

Definition zero_grad3 (w : World float (float * float * float) float) (i : nat)
    : option (list float) := None.

Definition backward3 (w : World float (float * float * float) float)
    (adv_loss : float) (i : nat) : option (list float) :=
  (λ np, (λ _, adv_loss) <$> value (heap w) np.2) <$> params w !! i.

Definition world3 : World float (float * float * float) float :=
  mkWorld (heap world) (params world) [].

Definition batch_no_labels : gmap string float :=
  {[ "flattened_patches" := 1%float; "attention_mask" := 1%float ]}.

Definition batch_full : gmap string float :=
  {[ "flattened_patches" := 1%float; "attention_mask" := 1%float;
     "labels" := 3%float ]}.

(** The controller and the world after [_save], and after [_attack_step]. *)
Definition awp_saved : AWP.t float := (_save awp world).1.
Definition world_saved : World float unit float := (_save awp world).2.
Definition world_attacked : World float unit float :=
  default world_saved (_attack_step awp_saved world_saved).


End ExampleMore.

Section more_examples.
Import Torch Float64 AWP Example ExampleMore.

Lemma save_bounds_from_empty {F : Type} `{Dtype F} {Batch Loss : Type}
    (a : AWP.t F) (w : World F Batch Loss) n :
  backup a = ∅ →
  is_Some (backup (_save a w).1 !! n) → is_Some (backup_eps (_save a w).1 !! n).
Proof.
  intros Hb. destruct (save_unfold a w) as (a1 & h1 & Hf & ->). simpl.
  apply (save_loop_bounds _ _ _ _ _ _ Hf). rewrite Hb, lookup_empty. by intros [? ?].
Qed.

Lemma save_backs_up_the_targets_witness :
  (is_Some (backup (_save awp world).1 !! "l.weight")
   ↔ ∃ p, ("l.weight", p) ∈ params world ∧ is_target awp "l.weight" p = true)
  ∧ (is_Some (backup (_save awp world).1 !! "l.weight")
     → is_Some (backup_eps (_save awp world).1 !! "l.weight")).
Proof. apply (save_backs_up_the_targets awp world "l.weight"). reflexivity. Defined.

Lemma attack_step_frame_witness :
  trace world_attacked = trace world_saved
  ∧ (∀ i, (λ np, (np.1, requires_grad np.2, grad np.2)) <$> params world_attacked !! i
          = (λ np, (np.1, requires_grad np.2, grad np.2)) <$> params world_saved !! i)
  ∧ length (heap world_attacked)
    = length (heap world_saved) + length (perturbed awp_saved (params world_saved))
  ∧ ∀ l, l < length (heap world_saved) →
         l ∉ locs (perturbed awp_saved (params world_saved)) →
         heap world_attacked !! l = heap world_saved !! l.
Proof.
  apply (attack_step_frame awp_saved world_saved world_attacked).
  - repeat constructor; simpl; lia.
  - by vm_compute.
Defined.

Lemma perturbed_keeps_shape_witness :
  ∃ w2 p2,
    _attack_step (_save awp world).1 (_save awp world).2 = Some w2
    ∧ params w2 !! 0 = Some ("l.weight", p2)
    ∧ length (value (heap w2) p2) = length (value (heap world) weight_l).
Proof.
  apply (perturbed_keeps_shape awp world 0 "l.weight" weight_l [1%float]);
    [apply wf_world_example | apply unshared_example | reflexivity..].
Defined.

Lemma attack_backward_calls_witness :
  ∃ a' w' w2,
    AWP.attack_backward model_call zero_grad backward awp world tt = Some (a', w')
    ∧ _attack_step (_save awp world).1 (_save awp world).2 = Some w2
    ∧ trace w' = trace world ++ [Forward tt; ZeroGrad; Backward (model_call w2 tt)].
Proof.
  apply (attack_backward_calls model_call zero_grad backward awp world tt);
    [apply wf_world_example | reflexivity..].
Defined.

Lemma attack_backward_gradients_witness :
  ∃ a' w' w2,
    AWP.attack_backward model_call zero_grad backward awp world tt = Some (a', w')
    ∧ _attack_step (_save awp world).1 (_save awp world).2 = Some w2
    ∧ ∀ i name p, params world !! i = Some (name, p) →
        ∃ p', params w' !! i = Some (name, p')
              ∧ requires_grad p' = requires_grad p
              ∧ grad p' =
                  backward (log ZeroGrad
                              (set_grads (zero_grad (log (Forward tt) w2))
                                         (log (Forward tt) w2)))
                           (model_call w2 tt) i.
Proof.
  apply (attack_backward_gradients model_call zero_grad backward awp world tt);
    [apply wf_world_example | reflexivity..].
Defined.

Lemma attack_backward_invariant_witness :
  ∃ a' w',
    AWP.attack_backward model_call zero_grad backward awp world tt = Some (a', w')
    ∧ wf_world w' ∧ unshared w'
    ∧ backup a' = ∅ ∧ backup_eps a' = ∅
    ∧ ∀ i name p, params world !! i = Some (name, p) →
        ∃ p', params w' !! i = Some (name, p')
              ∧ value (heap w') p' = value (heap world) p.
Proof.
  apply (attack_backward_invariant model_call zero_grad backward awp world tt);
    [apply wf_world_example | apply unshared_example | reflexivity..].
Defined.

(** A second cycle on the state an interrupted one left: [l.weight] is on
    the perturbed value 2.0002, and the cycle puts it back on the 2.0 of
    the first snapshot. *)
Lemma attack_backward_restores_first_snapshot_witness :
  ∃ a' w' p',
    AWP.attack_backward model_call zero_grad backward awp_saved world_attacked tt
      = Some (a', w')
    ∧ params w' !! 0 = Some ("l.weight", p')
    ∧ data p' = 3
    ∧ value (heap w') p' = deref (heap world_attacked) 3.
Proof.
  apply (attack_backward_restores_first_snapshot model_call zero_grad backward
           awp_saved world_attacked tt 0 "l.weight"
           (mkParam true (Some [1%float]) 5) 3).
  - repeat constructor; simpl; lia.
  - intros n. apply (save_bounds_from_empty awp world). reflexivity.
  - reflexivity.
  - by vm_compute.
  - by vm_compute.
  - vm_compute. lia.
  - compute_done.
Defined.

Lemma freeze_only_disables_witness :
  length (Matcha.parameters tiny_frozen) = length (Matcha.parameters tiny)
  ∧ (∀ j p', Matcha.parameters tiny_frozen !! j = Some p' →
       ∃ p, Matcha.parameters tiny !! j = Some p ∧ grad p' = grad p ∧ data p' = data p
            ∧ (requires_grad p' = true → requires_grad p = true))
  ∧ Matcha.freeze tiny_frozen = Some tiny_frozen.
Proof. apply (freeze_only_disables tiny tiny_frozen). by vm_compute. Defined.

Lemma freeze_few_layers_witness :
  Matcha.to_freeze_layer 2 = Some 0%Z
  ∧ Py.slice_to 0 (Matcha.encoder_layer two_layers) = []
  ∧ ∃ b', Matcha.freeze two_layers = Some b'
      ∧ (∀ j p', j ∈ Matcha.embeddings two_layers →
           Matcha.parameters b' !! j = Some p' → requires_grad p' = false)
      ∧ (∀ j, j ∉ Matcha.embeddings two_layers →
           Matcha.parameters b' !! j = Matcha.parameters two_layers !! j)
      ∧ (∀ j p, Matcha.parameters two_layers !! j = Some p →
           ∃ p', Matcha.parameters b' !! j = Some p'
                 ∧ grad p' = grad p ∧ data p' = data p
                 ∧ requires_grad p'
                   = if bool_decide (j ∈ Matcha.embeddings two_layers)
                     then false else requires_grad p).
Proof. apply (freeze_few_layers two_layers). simpl. lia. Defined.

Lemma freeze_past_the_end_witness :
  ∃ b', Matcha.freeze short_encoder = Some b'
        ∧ ∀ layer j p', layer ∈ Matcha.encoder_layer short_encoder → j ∈ layer →
            Matcha.parameters b' !! j = Some p' → requires_grad p' = false.
Proof. apply (freeze_past_the_end short_encoder); [simpl; lia | by vm_compute]. Defined.

Lemma frozen_never_attacked_witness :
  is_target awp "backbone.encoder.layer.1.weight" (mkParam false (Some [1%float]) 1)
    = false
  ∧ ∃ w2, _attack_step (_save awp tiny_world).1 (_save awp tiny_world).2 = Some w2
      ∧ backup (_save awp tiny_world).1 !! "backbone.encoder.layer.1.weight" = None
      ∧ ∃ p', params (_restore (_save awp tiny_world).1
                        (AWP.after_backward model_call zero_grad backward w2 tt)).2 !! 1
                = Some ("backbone.encoder.layer.1.weight", p')
              ∧ data p' = data (mkParam false (Some [1%float]) 1)
              ∧ value (heap (_restore (_save awp tiny_world).1
                               (AWP.after_backward model_call zero_grad backward w2 tt)).2) p'
                = value (heap tiny_world) (mkParam false (Some [1%float]) 1).
Proof.
  apply (frozen_never_attacked model_call zero_grad backward awp tiny_world
           tiny tiny_frozen 2 tiny_names 1 "backbone.encoder.layer.1.weight"
           (mkParam false (Some [1%float]) 1) tt).
  - by vm_compute.
  - by vm_compute.
  - compute_done.
  - reflexivity.
  - split; compute_done.
  - compute_done.
  - reflexivity.
  - reflexivity.
Defined.

Lemma missing_batch_key_leaves_perturbed_witness :
  ∃ w2, attack_backward_exc model zero_grad3 backward3 awp world3 batch_no_labels
          = Raised ((_save awp world3).1, w2)
        ∧ _attack_step (_save awp world3).1 (_save awp world3).2 = Some w2
        ∧ trace w2 = trace world3
        ∧ ∀ name p, (name, p) ∈ params world3 → is_target awp name p = true →
            is_Some (backup (_save awp world3).1 !! name).
Proof.
  apply (missing_batch_key_leaves_perturbed model zero_grad3 backward3
           awp world3 batch_no_labels).
  - split; compute_done.
  - reflexivity.
  - reflexivity.
  - right. right. by vm_compute.
Defined.

Lemma interrupted_cycle_recovers_witness :
  ∃ a1 w2 a' w' p',
    attack_backward_exc model zero_grad3 backward3 awp world3 batch_no_labels
      = Raised (a1, w2)
    ∧ attack_backward_exc model zero_grad3 backward3 a1 w2 batch_full = Returned (a', w')
    ∧ params w' !! 0 = Some ("l.weight", p')
    ∧ value (heap w') p' = value (heap world3) weight_l
    ∧ backup a' = ∅ ∧ backup_eps a' = ∅.
Proof.
  apply (interrupted_cycle_recovers model zero_grad3 backward3 awp world3
           batch_no_labels batch_full 1%float 1%float 3%float 0 "l.weight" weight_l).
  - split; compute_done.
  - reflexivity.
  - reflexivity.
  - right. right. by vm_compute.
  - by vm_compute.
  - by vm_compute.
  - by vm_compute.
  - reflexivity.
  - reflexivity.
Defined.


End more_examples.
